(** * html-balancer-stream: the balancing engine and its serializer

    A shallow embedding of [src/index.ts].  The closure built by
    [makeParser] (a counter [unclosed], a node [buffer], and the three
    callbacks it registers with the tokenizer) is a small state machine;
    the callbacks are written in a state-and-output monad so that they
    read like the TypeScript.

    JavaScript strings are modelled as Rocq strings, a sequence of 8-bit
    characters holding the UTF-8 encoding of the text.  Every string
    operation the source uses ([replaceAll] on ["<"] and [">"], equality of
    tag names, concatenation, [JSON.stringify]) acts on ASCII characters
    only and passes the other bytes through, so the encoding does not
    matter; a lone UTF-16 surrogate has no counterpart in this model. *)

From Stdlib Require Import String Ascii List ZArith NArith Bool Lia Permutation.
Import ListNotations.

Open Scope string_scope.
Open Scope list_scope.

(* ------------------------------------------------------------------ *)
(** ** JavaScript library functions used by the source *)

Module Js.

(** [Array.prototype.join] on an array of strings. *)
Definition join (sep : string) (xs : list string) : string :=
  String.concat sep xs.

(** [String.prototype.replaceAll(pattern, replacement)] with a string
    pattern: every occurrence, scanned left to right without overlap.
    [skip] counts the characters of a match still to be dropped.  The
    replacements of the source contain no [$], so they are literal. *)
Fixpoint replaceFrom (pattern replacement : string) (skip : nat) (s : string)
  : string :=
  match s with
  | EmptyString => EmptyString
  | String c rest =>
      match skip with
      | S k => replaceFrom pattern replacement k rest
      | O =>
          if String.prefix pattern s
          then replacement
                 ++ replaceFrom pattern replacement (String.length pattern - 1) rest
          else String c (replaceFrom pattern replacement 0 rest)
      end
  end.

(** With the empty pattern JavaScript inserts the replacement between
    all characters and at both ends. *)
Fixpoint replaceEmpty (replacement s : string) : string :=
  match s with
  | EmptyString => replacement
  | String c rest => replacement ++ String c (replaceEmpty replacement rest)
  end.

Definition replaceAll (pattern replacement s : string) : string :=
  match pattern with
  | EmptyString => replaceEmpty replacement s
  | _ => replaceFrom pattern replacement 0 s
  end.

(** *** [JSON.stringify] of a string (ECMAScript QuoteJSONString) *)

(** The one-character string holding a double quote (code 34). *)
Definition dquote : string := String "034"%char EmptyString.

Definition hexDigit (n : nat) : ascii :=
  if Nat.ltb n 10 then ascii_of_nat (48 + n) else ascii_of_nat (87 + n).

(** [\uXXXX] with lower-case hexadecimal digits, for a code below 256. *)
Definition unicodeEscape (n : nat) : string :=
  "\u00" ++ String (hexDigit (Nat.div n 16)) (String (hexDigit (Nat.modulo n 16)) "").

Definition quoteJSONChar (c : ascii) : string :=
  let n := nat_of_ascii c in
  if Nat.eqb n 8 then "\b"
  else if Nat.eqb n 9 then "\t"
  else if Nat.eqb n 10 then "\n"
  else if Nat.eqb n 12 then "\f"
  else if Nat.eqb n 13 then "\r"
  else if Nat.eqb n 34 then String "\" dquote
  else if Nat.eqb n 92 then "\\"
  else if Nat.ltb n 32 then unicodeEscape n
  else String c "".

(** The algorithm keeps a [product] that starts as a double quote, grows
    by one (possibly escaped) character per step and ends with a double
    quote. *)
Definition JSON_stringify (value : string) : string :=
  let product := dquote in
  let product :=
    fold_left (fun p c => (p ++ quoteJSONChar c)%string)
              (list_ascii_of_string value) product in
  product ++ dquote.

(** *** Objects used as ordered maps

    [Record<string, string>]: the own properties of a plain object, in
    the order in which they were created. *)
Definition Object_ := list (string * string).

Definition isDigit (c : ascii) : bool :=
  let n := nat_of_ascii c in Nat.leb 48 n && Nat.leb n 57.

Fixpoint digitsValue (acc : N) (s : string) : option N :=
  match s with
  | EmptyString => Some acc
  | String c rest =>
      if isDigit c
      then digitsValue (10 * acc + (N_of_ascii c - 48))%N rest
      else None
  end.

(** A property key is an array index when it is the canonical decimal
    form of an integer between 0 and 2^32 - 2. *)
Definition arrayIndex (key : string) : option N :=
  match key with
  | EmptyString => None
  | String c rest =>
      if Ascii.eqb c "0"%char
      then match rest with EmptyString => Some 0%N | _ => None end
      else match digitsValue 0 key with
           | Some n => if (n <=? 4294967294)%N then Some n else None
           | None => None
           end
  end.

Definition isArrayIndex (key : string) : bool :=
  match arrayIndex key with Some _ => true | None => false end.

Fixpoint insertByIndex (i : N) (kv : string * string)
         (sorted : list (N * (string * string))) : list (N * (string * string)) :=
  match sorted with
  | [] => [(i, kv)]
  | (j, kv') :: rest =>
      if (i <? j)%N then (i, kv) :: sorted
      else (j, kv') :: insertByIndex i kv rest
  end.

Fixpoint indexEntries (o : Object_) : list (N * (string * string)) :=
  match o with
  | [] => []
  | (k, v) :: rest =>
      match arrayIndex k with
      | Some i => insertByIndex i (k, v) (indexEntries rest)
      | None => indexEntries rest
      end
  end.

(** [Object.entries]: the order of OrdinaryOwnPropertyKeys, which lists
    the array-index keys first, in ascending numeric order, and then the
    other string keys in the order of their creation. *)
Definition Object_entries (o : Object_) : list (string * string) :=
  map snd (indexEntries o)
    ++ filter (fun kv => negb (isArrayIndex (fst kv))) o.

End Js.

(* ------------------------------------------------------------------ *)
(** ** The data model of [src/index.ts] *)

Inductive HtmlNode : Type :=
| Open (name : string) (attributes : Js.Object_)
| Close (name : string)
| Text (text : string).

Record HtmlBalancerStreamOptions : Type := { shouldBuffer : bool }.

Definition selfClosingTags : list string :=
  [ "area"; "base"; "br"; "col"; "embed"; "hr"; "img"; "input";
    "link"; "meta"; "param"; "source"; "track"; "wbr" ].

(** [selfClosingTags.includes(tag)] *)
Definition isSelfClosingTag (tag : string) : bool :=
  existsb (String.eqb tag) selfClosingTags.

Definition attributeString (kv : string * string) : string :=
  fst kv ++ "=" ++ Js.JSON_stringify (snd kv).

Definition nodeToString (node : HtmlNode) : string :=
  match node with
  | Open name attributes =>
      let attributeStrings := map attributeString (Js.Object_entries attributes) in
      let closeTag := if isSelfClosingTag name then "/" else "" in
      "<" ++ Js.join " " (name :: attributeStrings) ++ closeTag ++ ">"
  | Close name => "</" ++ name ++ ">"
  | Text text => text
  end.

Definition htmlNodesToString (nodes : list HtmlNode) : string :=
  Js.join "" (map nodeToString nodes).

Abbreviation dq := Js.dquote.

(* ------------------------------------------------------------------ *)
(** ** The closure of [makeParser]

    [makeParser] allocates [unclosed] and [buffer] and returns a parser
    whose callbacks mutate them and call [enqueue].  [unclosed] is a
    JavaScript number that [++] and [--] move by one in either direction,
    hence an integer.  What a callback hands to [enqueue] is recorded as the
    batch of nodes spliced out of the buffer; the chunk that reaches the
    consumer is [htmlNodesToString] of the batch. *)

Record Engine : Type := { unclosed : Z; buffer : list HtmlNode }.

Definition Batch : Type := list HtmlNode.

Definition initial : Engine := {| unclosed := 0; buffer := [] |}.

(** A callback: it reads and updates the closure and enqueues batches. *)
Definition Callback (A : Type) : Type := Engine -> A * Engine * list Batch.

Definition ret {A : Type} (a : A) : Callback A := fun e => (a, e, []).

Definition bind {A B : Type} (m : Callback A) (k : A -> Callback B) : Callback B :=
  fun e =>
    let '(a, e1, out1) := m e in
    let '(b, e2, out2) := k a e1 in
    (b, e2, out1 ++ out2).

Notation "m ;; k" := (bind m (fun _ => k))
  (at level 61, right associativity).

Definition when (condition : bool) (m : Callback unit) : Callback unit :=
  if condition then m else ret tt.

(** [unclosed++] and [unclosed--] *)
Definition incrementUnclosed : Callback unit :=
  fun e => (tt, {| unclosed := unclosed e + 1; buffer := buffer e |}, []).

Definition decrementUnclosed : Callback unit :=
  fun e => (tt, {| unclosed := unclosed e - 1; buffer := buffer e |}, []).

(** [buffer.push(node)] *)
Definition push (node : HtmlNode) : Callback unit :=
  fun e => (tt, {| unclosed := unclosed e; buffer := buffer e ++ [node] |}, []).

(** [unclosed === 0], read when the condition is evaluated. *)
Definition allClosed : Callback bool :=
  fun e => (Z.eqb (unclosed e) 0, e, []).

(** [if (buffer.length > 0) enqueue(htmlNodesToString(buffer.splice(0)))] *)
Definition flush : Callback unit :=
  fun e =>
    match buffer e with
    | [] => (tt, e, [])
    | _ :: _ => (tt, {| unclosed := unclosed e; buffer := [] |}, [buffer e])
    end.

(** [text.replaceAll("<", "&lt;").replaceAll(">", "&gt;")] *)
Definition sanitize (text : string) : string :=
  Js.replaceAll ">" "&gt;" (Js.replaceAll "<" "&lt;" text).

Section MakeParser.

Variable options : HtmlBalancerStreamOptions.

Definition onopentag (name : string) (attributes : Js.Object_) : Callback unit :=
  incrementUnclosed ;;
  push (Open name attributes) ;;
  when (negb (shouldBuffer options)) flush.

Definition ontext (text : string) : Callback unit :=
  let sanitizedText := sanitize text in
  push (Text sanitizedText) ;;
  bind allClosed (fun closed =>
  when (negb (shouldBuffer options) || closed) flush).

Definition onclosetag (name : string) : Callback unit :=
  decrementUnclosed ;;
  when (negb (isSelfClosingTag name)) (push (Close name)) ;;
  bind allClosed (fun closed =>
  when (negb (shouldBuffer options) || closed) flush).

End MakeParser.

(** The calls the tokenizer makes on the handler object. *)
Inductive Event : Type :=
| OnOpenTag (name : string) (attributes : Js.Object_)
| OnText (text : string)
| OnCloseTag (name : string).

Definition dispatch (options : HtmlBalancerStreamOptions) (ev : Event) : Callback unit :=
  match ev with
  | OnOpenTag name attributes => onopentag options name attributes
  | OnText text => ontext options text
  | OnCloseTag name => onclosetag options name
  end.

Fixpoint deliver (options : HtmlBalancerStreamOptions) (evs : list Event) : Callback unit :=
  match evs with
  | [] => ret tt
  | ev :: rest => dispatch options ev ;; deliver options rest
  end.

Definition stateAfter {A : Type} (r : A * Engine * list Batch) : Engine := snd (fst r).
Definition enqueued {A : Type} (r : A * Engine * list Batch) : list Batch := snd r.

(** The chunks the consumer receives. *)
Definition chunks {A : Type} (r : A * Engine * list Batch) : list string :=
  map htmlNodesToString (enqueued r).

Definition unbuffered : HtmlBalancerStreamOptions := {| shouldBuffer := false |}.
Definition buffered : HtmlBalancerStreamOptions := {| shouldBuffer := true |}.

(* ------------------------------------------------------------------ *)
(** ** The tokenizer's side of the contract

    The events come from htmlparser2's [Parser], a dependency of the
    package and not part of its sources.  What the engine relies on is
    the discipline of its calls, which the source records as
    "htmlparser2 automatically closes tags in order when needed". *)

(** Modelled from the spec: the external tokenizer (htmlparser2's [Parser],
    absent from the sources) delivers its calls in document order and
    keeps the stack of open tags: an open-tag call opens a tag, also a
    void one, whose close-tag call follows at once; a close-tag call
    closes the tag opened last among those still open.  [openTags stack evs]
    is the stack after the calls [evs], last opened first, or [None] when
    the calls break that discipline. *)
Fixpoint openTags (stack : list string) (evs : list Event) : option (list string) :=
  match evs with
  | [] => Some stack
  | OnOpenTag name _ :: rest => openTags (name :: stack) rest
  | OnText _ :: rest => openTags stack rest
  | OnCloseTag name :: rest =>
      match stack with
      | top :: below => if String.eqb name top then openTags below rest else None
      | [] => None
      end
  end.

(** Modelled from the spec: on the end-of-input signal ([parser.end()] in
    the stream's [flush] and in [balanceHtmlString]) the tokenizer, absent
    from the sources, makes one close-tag call per tag still open, the one
    opened last first. *)
Definition endOfInput (stack : list string) : list Event :=
  map OnCloseTag stack.



Definition nonVoid (name : string) : bool := negb (isSelfClosingTag name).

(* ------------------------------------------------------------------ *)
(** ** What one call does to the closure *)

(** The node a call appends to the buffer, if any. *)
Definition pushed (ev : Event) : list HtmlNode :=
  match ev with
  | OnOpenTag name attributes => [Open name attributes]
  | OnText text => [Text (sanitize text)]
  | OnCloseTag name => if isSelfClosingTag name then [] else [Close name]
  end.

Definition delta (ev : Event) : Z :=
  match ev with
  | OnOpenTag _ _ => 1
  | OnText _ => 0
  | OnCloseTag _ => -1
  end.

(** The flush condition of a call, given the counter it leaves. *)
Definition wantsFlush (options : HtmlBalancerStreamOptions) (ev : Event) (u : Z) : bool :=
  match ev with
  | OnOpenTag _ _ => negb (shouldBuffer options)
  | _ => negb (shouldBuffer options) || Z.eqb u 0
  end.

Definition settle (flushNow : bool) (u : Z) (b : list HtmlNode) : unit * Engine * list Batch :=
  if flushNow
  then (tt, {| unclosed := u; buffer := [] |}, match b with [] => [] | _ => [b] end)
  else (tt, {| unclosed := u; buffer := b |}, []).


(** The net effect of a run of calls on the counter. *)
Fixpoint depthChange (evs : list Event) : Z :=
  match evs with
  | [] => 0
  | ev :: rest => delta ev + depthChange rest
  end.

(** The engine is settled when nothing is buffered while no tag is open. *)
Definition settled (e : Engine) : Prop := unclosed e = 0%Z -> buffer e = [].


(** Classes of nodes, for counting what reaches the consumer. *)
Definition isNonVoidOpen (node : HtmlNode) : bool :=
  match node with Open name _ => nonVoid name | _ => false end.

Definition isNonVoidClose (node : HtmlNode) : bool :=
  match node with Close name => nonVoid name | _ => false end.

Definition isVoidClose (node : HtmlNode) : bool :=
  match node with Close name => isSelfClosingTag name | _ => false end.

Definition isNonVoidOpenCall (ev : Event) : bool :=
  match ev with OnOpenTag name _ => nonVoid name | _ => false end.

Definition count {A : Type} (p : A -> bool) (xs : list A) : nat :=
  length (filter p xs).

(** ** The serializer and the sanitizer, character by character

    Reference definitions that follow the wording of the spec, against
    which the string operations of the source are compared. *)

(** The concatenation of the images of the characters of [s]. *)
Fixpoint mapChars (f : ascii -> string) (s : string) : string :=
  match s with
  | EmptyString => EmptyString
  | String c rest => f c ++ mapChars f rest
  end.

(** "escape [<] to [&lt;] and [>] to [&gt;]" *)
Definition escapeAngle (c : ascii) : string :=
  if Ascii.eqb c "<" then "&lt;"
  else if Ascii.eqb c ">" then "&gt;"
  else String c EmptyString.

Definition escapeAngleBrackets (raw : string) : string := mapChars escapeAngle raw.

(** The inside of a JSON string literal. *)
Definition escapeJSON (value : string) : string := mapChars Js.quoteJSONChar value.

Definition notArrayIndex (kv : string * string) : bool :=
  negb (Js.isArrayIndex (fst kv)).

Definition backslash : string := "\".

(** The numbers of [xs] never decrease. *)
Fixpoint ascending (xs : list N) : bool :=
  match xs with
  | [] => true
  | x :: rest =>
      match rest with
      | [] => true
      | y :: _ => (x <=? y)%N && ascending rest
      end
  end.

(** How an attribute reads in an opening tag, following the spec: the
    name, an equals sign and the escaped value between double quotes. *)
Definition quotedAttribute (kv : string * string) : string :=
  fst kv ++ "=" ++ dq ++ escapeJSON (snd kv) ++ dq.

(* ------------------------------------------------------------------ *)
(** ** The one-shot API *)

(** [s] holds the character [>]. *)
Fixpoint hasGt (s : string) : bool :=
  match s with
  | EmptyString => false
  | String c rest => Ascii.eqb c ">" || hasGt rest
  end.

(** [htmlString.replace(/<[^>]*$/, "")]: the match starts at the first
    [<] after which no [>] occurs and runs to the end of the string. *)
Fixpoint stripIncompleteTag (htmlString : string) : string :=
  match htmlString with
  | EmptyString => EmptyString
  | String c rest =>
      if Ascii.eqb c "<" && negb (hasGt rest) then EmptyString
      else String c (stripIncompleteTag rest)
  end.

Section OneShot.

(** The tokenizer, which is not part of the sources, is a parameter: for
    an input text, the calls it makes while reading the text and the stack
    of the tags it then holds open, last opened first. *)
Variable tokenize : string -> list Event * list string.

(** [parser.end(input)]: the calls for the text, then those of the end of
    input. *)
Definition callsFor (input : string) : list Event :=
  let '(evs, stack) := tokenize input in evs ++ endOfInput stack.

Definition balanceHtmlString (htmlString : string) : string :=
  let result := EmptyString in
  fold_left (fun result chunk => (result ++ chunk)%string)
            (chunks (deliver unbuffered (callsFor (stripIncompleteTag htmlString)) initial))
            result.

End OneShot.

(** A character that [JSON.stringify] writes as it is. *)
Definition jsonPlain (c : ascii) : bool :=
  Nat.leb 32 (nat_of_ascii c)
  && negb (Nat.eqb (nat_of_ascii c) 34)
  && negb (Nat.eqb (nat_of_ascii c) 92).

Fixpoint allChars (p : ascii -> bool) (s : string) : bool :=
  match s with
  | EmptyString => true
  | String c rest => p c && allChars p rest
  end.

(** Modelled from the spec: the tokenizer is absent from the sources, and
    the spec has it report tag names and attribute values as they are
    written.  For the two texts of the counterexample to idempotence,
    [<a b="\"></a>] and [<a b="\\"></a>], that is an opening tag [a] with
    one attribute [b] whose value is the text between the quotes (a
    backslash has no special meaning in HTML), then its closing tag, which
    leaves nothing open.  No other text is asked of this table. *)
Definition sampleInput : string := "<a b=" ++ dq ++ backslash ++ dq ++ "></a>".
Definition sampleOutput : string :=
  "<a b=" ++ dq ++ backslash ++ backslash ++ dq ++ "></a>".

Definition sampleTokenize (input : string) : list Event * list string :=
  if String.eqb input sampleInput
  then ([OnOpenTag "a" [("b", backslash)]; OnCloseTag "a"], [])
  else if String.eqb input sampleOutput
  then ([OnOpenTag "a" [("b", (backslash ++ backslash)%string)]; OnCloseTag "a"], [])
  else ([], []).

(* ------------------------------------------------------------------ *)
(** ** Further vocabulary for the properties of the engine *)

Definition isOpenCall (ev : Event) : bool :=
  match ev with OnOpenTag _ _ => true | _ => false end.

Definition isCloseCall (ev : Event) : bool :=
  match ev with OnCloseTag _ => true | _ => false end.

(** The text the consumer has received: the chunks, one after the other. *)
Definition received {A : Type} (r : A * Engine * list Batch) : string :=
  Js.join "" (chunks r).

(** How many characters of [s] satisfy [p]. *)
Fixpoint countChars (p : ascii -> bool) (s : string) : nat :=
  match s with
  | EmptyString => 0
  | String c rest => (if p c then 1 else 0) + countChars p rest
  end.

Definition isAngle (c : ascii) : bool := Ascii.eqb c "<" || Ascii.eqb c ">".

Definition isLowerLetter (c : ascii) : bool :=
  Nat.leb 97 (nat_of_ascii c) && Nat.leb (nat_of_ascii c) 122.

(** Reading back the first character of the inside of a JSON string
    literal, as [JSON.parse] does: the inverse of [Js.quoteJSONChar], used
    to show that the escaping loses nothing. *)
Definition hexValue (c : ascii) : nat :=
  let n := nat_of_ascii c in if Nat.ltb n 58 then n - 48 else n - 87.

Definition unquoteHead (s : string) : option (ascii * string) :=
  match s with
  | EmptyString => None
  | String c rest =>
      if Ascii.eqb c "\" then
        match rest with
        | EmptyString => None
        | String x rest' =>
            if Ascii.eqb x "b" then Some (ascii_of_nat 8, rest')
            else if Ascii.eqb x "t" then Some (ascii_of_nat 9, rest')
            else if Ascii.eqb x "n" then Some (ascii_of_nat 10, rest')
            else if Ascii.eqb x "f" then Some (ascii_of_nat 12, rest')
            else if Ascii.eqb x "r" then Some (ascii_of_nat 13, rest')
            else if Ascii.eqb x "u" then
              match rest' with
              | String _ (String _ (String h (String l rest''))) =>
                  Some (ascii_of_nat (16 * hexValue h + hexValue l), rest'')
              | _ => None
              end
            else Some (x, rest')
        end
      else Some (c, rest)
  end.

Definition hasArrayIndexName (kv : string * string) : bool := Js.isArrayIndex (fst kv).

(* ------------------------------------------------------------------ *)
(** ** The stream class

    [HtmlBalancerStream] hands every chunk written to it to
    [parser.write] and calls [parser.end] when the input closes; the
    parser makes its calls on the engine while it runs, and what the
    engine enqueues goes to the readable side in that order.  The parser
    is htmlparser2's and is a parameter here: its state, what it is at the
    start, the calls it makes for a chunk and the calls it makes at the
    end. *)

(** [{ buffer: shouldBuffer ?? false }] *)
Definition streamOptions (given : option bool) : HtmlBalancerStreamOptions :=
  {| shouldBuffer := match given with Some b => b | None => false end |}.

Section HtmlBalancerStream.

Variable ParserState : Type.
Variable parserStart : ParserState.
Variable parserWrite : ParserState -> string -> list Event * ParserState.
Variable parserEnd : ParserState -> list Event.

Variable options : HtmlBalancerStreamOptions.

Record Stream : Type := { parser : ParserState; closure : Engine }.

Definition newStream : Stream := {| parser := parserStart; closure := initial |}.

(** [transform: (chunk) => { this.parser.write(chunk) }] *)
Definition transform (chunk : string) (s : Stream) : Stream * list string :=
  let '(evs, next) := parserWrite (parser s) chunk in
  let r := deliver options evs (closure s) in
  ({| parser := next; closure := stateAfter r |}, chunks r).

(** [flush: () => { this.parser.end() }] *)
Definition flushStream (s : Stream) : list string :=
  chunks (deliver options (parserEnd (parser s)) (closure s)).

(** Everything the readable side yields for the chunks written and the
    closing of the input. *)
Fixpoint pipeThrough (input : list string) (s : Stream) : list string :=
  match input with
  | [] => flushStream s
  | chunk :: rest =>
      let '(next, out) := transform chunk s in out ++ pipeThrough rest next
  end.

(** All the calls the parser makes for the chunks written and the end. *)
Fixpoint callsOfStream (input : list string) (p : ParserState) : list Event :=
  match input with
  | [] => parserEnd p
  | chunk :: rest =>
      let '(evs, next) := parserWrite p chunk in evs ++ callsOfStream rest next
  end.

End HtmlBalancerStream.

(* ------------------------------------------------------------------ *)
(** ** Balanced fragments *)

(** The tags a sequence of nodes leaves open, last opened first, when the
    sequence is read as markup: an opening tag of a void name is a whole
    element, any other opening tag opens an element, a closing tag closes
    the element opened last, which must bear its name.  [None] when a
    closing tag has no such element to close. *)
Fixpoint openNodes (stack : list string) (nodes : list HtmlNode) : option (list string) :=
  match nodes with
  | [] => Some stack
  | Open name _ :: rest =>
      openNodes (if isSelfClosingTag name then stack else name :: stack) rest
  | Text _ :: rest => openNodes stack rest
  | Close name :: rest =>
      match stack with
      | top :: below => if String.eqb name top then openNodes below rest else None
      | [] => None
      end
  end.

(** A fragment is balanced when it closes every element it opens and
    nothing else. *)
Definition balanced (nodes : list HtmlNode) : Prop := openNodes [] nodes = Some [].

Definition isEmptyText (node : HtmlNode) : bool :=
  match node with Text EmptyString => true | _ => false end.

(** A Text node whose content holds [<] or [>]. *)
Definition isRawText (node : HtmlNode) : bool :=
  match node with
  | Text text => negb (Nat.eqb (countChars isAngle text) 0)
  | _ => false
  end.

(** The text of a closing tag. *)
Definition closingTag (name : string) : string := "</" ++ name ++ ">".

(** What follows the backslash in the JSON escape of a control character
    (a code below 32): a letter for backspace, tab, line feed, form feed
    and carriage return, otherwise [u00] and the code in two lower-case
    hexadecimal digits. *)
Definition lowerHex (n : nat) : string :=
  match String.get n "0123456789abcdef" with
  | Some c => String c EmptyString
  | None => EmptyString
  end.

Definition controlEscape (c : ascii) : string :=
  let n := nat_of_ascii c in
  if Nat.eqb n 8 then "b"
  else if Nat.eqb n 9 then "t"
  else if Nat.eqb n 10 then "n"
  else if Nat.eqb n 12 then "f"
  else if Nat.eqb n 13 then "r"
  else "u00" ++ lowerHex (Nat.div n 16) ++ lowerHex (Nat.modulo n 16).

(** The array index a property name stands for, 0 when it is none. *)
Definition indexOfName (kv : string * string) : N :=
  match Js.arrayIndex (fst kv) with Some i => i | None => 0%N end.

(* ------------------------------------------------------------------ *)
(** ** Closing tags of void names in a text *)

(** [s] holds the character [<]. *)
Fixpoint hasLt (s : string) : bool :=
  match s with
  | EmptyString => false
  | String c rest => Ascii.eqb c "<" || hasLt rest
  end.

(** [s] starts with the closing tag of a void name. *)
Definition startsVoidClose (s : string) : bool :=
  existsb (fun void => String.prefix (closingTag void) s) selfClosingTags.

(** The closing tag of a void name occurs somewhere in [s]. *)
Fixpoint hasVoidClose (s : string) : bool :=
  match s with
  | EmptyString => false
  | String c rest => startsVoidClose s || hasVoidClose rest
  end.

(** A call whose names are such as a tokenizer reports: a tag name holds
    no [<] and does not start with a slash, the name of a closing tag
    holds no [>] either, and no attribute name or value holds [<]. *)
Definition plainCall (ev : Event) : bool :=
  match ev with
  | OnOpenTag name attributes =>
      negb (hasLt name) && negb (String.prefix "/" name)
      && forallb (fun kv => negb (hasLt (fst kv)) && negb (hasLt (snd kv))) attributes
  | OnText _ => true
  | OnCloseTag name => negb (hasLt name) && negb (hasGt name)
  end.

(** A node whose rendering brings no closing tag of a void name into a
    text, whatever follows it. *)
Definition cleanNode (node : HtmlNode) : Prop :=
  forall rest, hasVoidClose (nodeToString node ++ rest) = hasVoidClose rest.
(* ------------------------------------------------------------------ *)
(** ** Scenarios of the test suite, at the level of tokenizer calls *)

Example render_img :
  htmlNodesToString [Open "img" [("src", "test.jpg"); ("alt", "image")]]
  = ("<img src=" ++ dq ++ "test.jpg" ++ dq ++ " alt=" ++ dq ++ "image" ++ dq ++ "/>")%string.
Proof. reflexivity. Qed.

Example unbuffered_div :
  chunks (deliver unbuffered [OnOpenTag "div" []; OnText "content"; OnCloseTag "div"] initial)
  = ["<div>"; "content"; "</div>"].
Proof. reflexivity. Qed.

Example buffered_nested :
  chunks (deliver buffered
            [OnOpenTag "div" []; OnOpenTag "p" []; OnText "content"] initial) = []
  /\ chunks (deliver buffered
            [OnOpenTag "div" []; OnOpenTag "p" []; OnText "content";
             OnCloseTag "p"; OnCloseTag "div"] initial)
     = ["<div><p>content</p></div>"].
Proof. split; reflexivity. Qed.

Example buffered_void :
  chunks (deliver buffered
            [OnOpenTag "br" []; OnCloseTag "br";
             OnOpenTag "img" [("src", "test.jpg")]; OnCloseTag "img"] initial)
  = ["<br/>"; ("<img src=" ++ dq ++ "test.jpg" ++ dq ++ "/>")%string].
Proof. reflexivity. Qed.

Example unbuffered_unclosed_nested :
  let evs := [OnOpenTag "div" []; OnOpenTag "p" []; OnOpenTag "span" []; OnText "content"] in
  chunks (deliver unbuffered evs initial) = ["<div>"; "<p>"; "<span>"; "content"]
  /\ openTags [] evs = Some ["span"; "p"; "div"]
  /\ chunks (deliver unbuffered (endOfInput ["span"; "p"; "div"])
               (stateAfter (deliver unbuffered evs initial)))
     = ["</span>"; "</p>"; "</div>"].
Proof. repeat split. Qed.

Example unbuffered_custom_self_closing :
  chunks (deliver unbuffered
            [OnOpenTag "test-tag" []; OnCloseTag "test-tag";
             OnOpenTag "br" []; OnCloseTag "br";
             OnOpenTag "Wrapper" []; OnOpenTag "Custom" [("src", "test.jpg")];
             OnCloseTag "Custom"; OnCloseTag "Wrapper"] initial)
  = ["<test-tag>"; "</test-tag>"; "<br/>"; "<Wrapper>";
     ("<Custom src=" ++ dq ++ "test.jpg" ++ dq ++ ">")%string; "</Custom>"; "</Wrapper>"].
Proof. reflexivity. Qed.

Example buffered_text_between_tags :
  let evs := [OnOpenTag "div" []; OnText "content"; OnCloseTag "div";
              OnText "immediate text"; OnOpenTag "p" []; OnText "more"] in
  chunks (deliver buffered evs initial) = ["<div>content</div>"; "immediate text"]
  /\ chunks (deliver buffered (endOfInput ["p"])
               (stateAfter (deliver buffered evs initial)))
     = ["<p>more</p>"].
Proof. split; reflexivity. Qed.

Example sanitize_angle_brackets :
  sanitize "This < that > other & " = "This &lt; that &gt; other & ".
Proof. reflexivity. Qed.

(* ------------------------------------------------------------------ *)
(** ** The callbacks in closed form *)

Lemma flush_settle e : flush e = settle true (unclosed e) (buffer e).
Proof.
  unfold flush, settle. destruct e as [u b]; simpl. destruct b; reflexivity.
Qed.

Lemma dispatch_settle options ev e :
  dispatch options ev e
  = settle (wantsFlush options ev (unclosed e + delta ev))
           (unclosed e + delta ev) (buffer e ++ pushed ev).
Proof.
  destruct e as [u b], ev as [name attributes | text | name]; simpl.
  - unfold onopentag, bind, when, incrementUnclosed, push; simpl.
    destruct (shouldBuffer options); simpl.
    + reflexivity.
    + rewrite flush_settle; reflexivity.
  - unfold ontext, bind, when, allClosed, push; simpl.
    rewrite Z.add_0_r.
    destruct (negb (shouldBuffer options) || (u =? 0)%Z); simpl.
    + rewrite flush_settle; reflexivity.
    + reflexivity.
  - unfold onclosetag, bind, when, allClosed, decrementUnclosed, push; simpl.
    replace (u + -1)%Z with (u - 1)%Z by lia.
    destruct (isSelfClosingTag name); simpl;
      destruct (negb (shouldBuffer options) || (u - 1 =? 0)%Z); simpl;
      rewrite ?flush_settle, ?app_nil_r; reflexivity.
Qed.

Lemma deliver_cons options ev rest e :
  deliver options (ev :: rest) e
  = let r1 := dispatch options ev e in
    let r2 := deliver options rest (stateAfter r1) in
    (tt, stateAfter r2, enqueued r1 ++ enqueued r2).
Proof.
  simpl. unfold bind, stateAfter, enqueued.
  destruct (dispatch options ev e) as [[[] e1] o1]; simpl.
  destruct (deliver options rest e1) as [[[] e2] o2]; reflexivity.
Qed.

Lemma deliver_app options evs1 evs2 e :
  deliver options (evs1 ++ evs2) e
  = let r1 := deliver options evs1 e in
    let r2 := deliver options evs2 (stateAfter r1) in
    (tt, stateAfter r2, enqueued r1 ++ enqueued r2).
Proof.
  revert e. induction evs1 as [| ev rest IH]; intros e.
  - simpl. unfold ret, stateAfter, enqueued; simpl.
    destruct (deliver options evs2 e) as [[[] e2] o2]; reflexivity.
  - rewrite <- app_comm_cons, !deliver_cons. cbv zeta.
    rewrite IH. cbv zeta. unfold stateAfter, enqueued; simpl.
    rewrite app_assoc. reflexivity.
Qed.

Lemma stateAfter_settle f u b :
  stateAfter (settle f u b) = {| unclosed := u; buffer := if f then [] else b |}.
Proof. unfold settle, stateAfter; destruct f; reflexivity. Qed.

Lemma enqueued_settle f u b :
  enqueued (settle f u b) = if f then match b with [] => [] | _ => [b] end else [].
Proof. unfold settle, enqueued; destruct f; reflexivity. Qed.

(* ------------------------------------------------------------------ *)
(** ** Runs of the engine *)

Lemma dispatch_conserves options ev e :
  let r := dispatch options ev e in
  concat (enqueued r) ++ buffer (stateAfter r) = buffer e ++ pushed ev.
Proof.
  cbv zeta. rewrite dispatch_settle, stateAfter_settle, enqueued_settle. simpl.
  destruct (wantsFlush _ _ _); simpl.
  - destruct (buffer e ++ pushed ev); simpl; rewrite ?app_nil_r; reflexivity.
  - reflexivity.
Qed.

(** Nothing is lost and nothing is reordered: the batches enqueued, then
    what is still buffered, are the nodes pushed, in order. *)
Lemma deliver_conserves options evs e :
  let r := deliver options evs e in
  concat (enqueued r) ++ buffer (stateAfter r) = buffer e ++ flat_map pushed evs.
Proof.
  cbv zeta. revert e. induction evs as [| ev rest IH]; intros e.
  - simpl. rewrite app_nil_r. reflexivity.
  - rewrite deliver_cons. cbv zeta.
    change (stateAfter (tt, ?s, ?o)) with s. change (enqueued (tt, ?s, ?o)) with o.
    rewrite concat_app, <- app_assoc, IH, app_assoc, dispatch_conserves.
    simpl. rewrite <- app_assoc. reflexivity.
Qed.

Lemma deliver_unclosed options evs e :
  unclosed (stateAfter (deliver options evs e)) = (unclosed e + depthChange evs)%Z.
Proof.
  revert e. induction evs as [| ev rest IH]; intros e.
  - simpl. unfold ret, stateAfter; simpl. lia.
  - rewrite deliver_cons. cbv zeta.
    change (stateAfter (tt, ?s, ?o)) with s.
    rewrite IH, dispatch_settle, stateAfter_settle. simpl unclosed.
    simpl depthChange. lia.
Qed.

Lemma openTags_depth stack evs stack' :
  openTags stack evs = Some stack' ->
  (Z.of_nat (length stack) + depthChange evs = Z.of_nat (length stack'))%Z.
Proof.
  revert stack. induction evs as [| ev rest IH]; intros stack H.
  - simpl in *. injection H as <-. lia.
  - destruct ev as [name attributes | text | name]; simpl in H.
    + apply IH in H. cbn [length depthChange delta] in *. lia.
    + apply IH in H. cbn [length depthChange delta] in *. lia.
    + destruct stack as [| top below]; [discriminate |].
      destruct (String.eqb name top); [| discriminate].
      apply IH in H. cbn [length depthChange delta] in *. lia.
Qed.

Lemma openTags_app stack evs1 evs2 :
  openTags stack (evs1 ++ evs2)
  = match openTags stack evs1 with
    | Some mid => openTags mid evs2
    | None => None
    end.
Proof.
  revert stack. induction evs1 as [| ev rest IH]; intros stack.
  - reflexivity.
  - destruct ev as [name attributes | text | name]; simpl; auto.
    destruct stack as [| top below]; [reflexivity |].
    destruct (String.eqb name top); auto.
Qed.

Lemma openTags_endOfInput stack : openTags stack (endOfInput stack) = Some [].
Proof.
  induction stack as [| top below IH]; simpl.
  - reflexivity.
  - rewrite String.eqb_refl. exact IH.
Qed.

Lemma pushed_endOfInput stack :
  flat_map pushed (endOfInput stack) = map Close (filter nonVoid stack).
Proof.
  induction stack as [| top below IH]; simpl.
  - reflexivity.
  - unfold nonVoid at 1. destruct (isSelfClosingTag top); simpl; rewrite IH; reflexivity.
Qed.

(** Without buffering the buffer is empty between calls and every node
    pushed leaves in a batch of its own. *)
Lemma deliver_unbuffered options evs e :
  shouldBuffer options = false ->
  buffer e = [] ->
  let r := deliver options evs e in
  buffer (stateAfter r) = []
  /\ enqueued r = map (fun node => [node]) (flat_map pushed evs).
Proof.
  intros Hmode. cbv zeta. revert e. induction evs as [| ev rest IH]; intros e He.
  - simpl. unfold ret, stateAfter, enqueued; simpl. auto.
  - rewrite deliver_cons. cbv zeta.
    change (stateAfter (tt, ?s, ?o)) with s. change (enqueued (tt, ?s, ?o)) with o.
    rewrite dispatch_settle, stateAfter_settle, enqueued_settle, He.
    assert (Hf : wantsFlush options ev (unclosed e + delta ev) = true).
    { destruct ev; simpl; rewrite Hmode; reflexivity. }
    rewrite Hf. destruct (IH {| unclosed := unclosed e + delta ev; buffer := [] |} eq_refl)
      as [Hb Hq].
    split; [exact Hb |]. rewrite Hq. simpl flat_map. rewrite map_app. f_equal.
    destruct ev as [name attributes | text | name]; simpl; try reflexivity.
    destruct (isSelfClosingTag name); reflexivity.
Qed.

(** Along calls that follow the tokenizer's discipline the counter is the
    height of the tokenizer's stack, and the engine stays settled. *)
Lemma deliver_wellNested options evs stack stack' e :
  openTags stack evs = Some stack' ->
  unclosed e = Z.of_nat (length stack) ->
  settled e ->
  let r := deliver options evs e in
  unclosed (stateAfter r) = Z.of_nat (length stack') /\ settled (stateAfter r).
Proof.
  cbv zeta. revert stack e. induction evs as [| ev rest IH]; intros stack e Hopen Hu Hs.
  - simpl in Hopen. injection Hopen as <-. simpl. unfold ret, stateAfter; simpl. auto.
  - rewrite deliver_cons. cbv zeta. change (stateAfter (tt, ?s, ?o)) with s.
    rewrite dispatch_settle, stateAfter_settle.
    destruct ev as [name attributes | text | name]; simpl in Hopen.
    + apply (IH _ _ Hopen).
      * cbn [unclosed length delta]. lia.
      * intros H0. cbn [unclosed delta] in H0. lia.
    + apply (IH _ _ Hopen).
      * simpl. lia.
      * intros H0. simpl in H0. simpl.
        replace (unclosed e + 0 =? 0)%Z with true by (symmetry; apply Z.eqb_eq; lia).
        rewrite orb_true_r. reflexivity.
    + destruct stack as [| top below]; [discriminate |].
      destruct (String.eqb name top); [| discriminate].
      apply (IH _ _ Hopen).
      * cbn [unclosed length delta] in *. lia.
      * intros H0. simpl in H0. simpl.
        replace (unclosed e + -1 =? 0)%Z with true by (symmetry; apply Z.eqb_eq; lia).
        rewrite orb_true_r. reflexivity.
Qed.




(* ------------------------------------------------------------------ *)
(** ** End of input *)

(* ------------------------------------------------------------------ *)
(** ** Conservation of tags *)

Lemma count_app {A : Type} (p : A -> bool) (xs ys : list A) :
  count p (xs ++ ys) = (count p xs + count p ys)%nat.
Proof. unfold count. rewrite filter_app, length_app. reflexivity. Qed.

(** Among the nodes pushed along well-nested calls, the closing tags of
    non-void names and the non-void tags left open make up the opening
    tags of non-void names and the non-void tags open at the start. *)
Lemma wellNested_counts stack evs stack' :
  openTags stack evs = Some stack' ->
  (count isNonVoidClose (flat_map pushed evs) + count nonVoid stack'
   = count isNonVoidOpen (flat_map pushed evs) + count nonVoid stack)%nat.
Proof.
  revert stack. induction evs as [| ev rest IH]; intros stack H.
  - simpl in H. injection H as <-. reflexivity.
  - destruct ev as [name attributes | text | name]; simpl in H;
      cbn [flat_map]; rewrite !count_app.
    + apply IH in H. unfold count in *. cbn [pushed filter isNonVoidClose isNonVoidOpen] in *.
      destruct (nonVoid name); cbn [length] in *; lia.
    + apply IH in H. unfold count in *. cbn [pushed filter isNonVoidClose isNonVoidOpen] in *.
      cbn [length] in *; lia.
    + destruct stack as [| top below]; [discriminate |].
      destruct (String.eqb name top) eqn:Hname; [| discriminate].
      apply String.eqb_eq in Hname. subst top.
      apply IH in H. unfold count in *. cbn [pushed filter] in *.
      unfold nonVoid in *.
      destruct (isSelfClosingTag name) eqn:Hvoid;
        cbn [filter isNonVoidClose isNonVoidOpen negb length] in *;
        unfold nonVoid; rewrite ?Hvoid; cbn [negb length]; lia.
Qed.

Lemma pushed_opens evs :
  count isNonVoidOpen (flat_map pushed evs) = count isNonVoidOpenCall evs.
Proof.
  induction evs as [| ev rest IH]; [reflexivity |].
  cbn [flat_map]. rewrite count_app, IH. unfold count.
  destruct ev as [name attributes | text | name]; cbn [pushed filter isNonVoidOpen isNonVoidOpenCall].
  - destruct (nonVoid name); reflexivity.
  - reflexivity.
  - destruct (isSelfClosingTag name); reflexivity.
Qed.

(** C9.  For calls that follow the tokenizer's discipline and are brought
    to end of input, the closing tags of non-void names among the nodes
    enqueued (those the tokenizer asked for in the document and those it
    asked for at the end) are as many as the opening tags of non-void
    names enqueued, and as many as the open-tag calls for non-void names. *)
Theorem C9_closes_match_opens
        (options : HtmlBalancerStreamOptions) (evs : list Event) (stack : list string) :
  openTags [] evs = Some stack ->
  let r := deliver options (evs ++ endOfInput stack) initial in
  count isNonVoidClose (concat (enqueued r)) = count isNonVoidOpen (concat (enqueued r))
  /\ count isNonVoidOpen (concat (enqueued r)) = count isNonVoidOpenCall evs.
Proof.
  intros Hopen r.
  assert (Hall : openTags [] (evs ++ endOfInput stack) = Some []).
  { rewrite openTags_app, Hopen. apply openTags_endOfInput. }
  assert (Hinit : settled initial) by (intros _; reflexivity).
  destruct (deliver_wellNested options _ [] [] initial Hall eq_refl Hinit) as [Hzero Hdone].
  fold r in Hzero, Hdone. simpl in Hzero.
  pose proof (deliver_conserves options (evs ++ endOfInput stack) initial) as Hcons.
  cbv zeta in Hcons. fold r in Hcons.
  rewrite (Hdone Hzero), app_nil_r in Hcons. simpl in Hcons.
  rewrite Hcons.
  pose proof (wellNested_counts [] _ [] Hall) as Hcount.
  unfold count at 2 4 in Hcount. simpl in Hcount.
  split; [lia |].
  rewrite flat_map_app, count_app, pushed_opens, pushed_endOfInput.
  replace (count isNonVoidOpen (map Close (filter nonVoid stack))) with 0%nat.
  - lia.
  - unfold count. induction (filter nonVoid stack); [reflexivity | assumption].
Qed.

Lemma C9_witness :
  let evs := [OnOpenTag "div" []; OnOpenTag "p" []; OnText "content";
              OnOpenTag "br" []; OnCloseTag "br"] in
  let stack := ["p"; "div"] in
  openTags [] evs = Some stack
  /\ count isNonVoidClose
       (concat (enqueued (deliver buffered (evs ++ endOfInput stack) initial)))
     = count isNonVoidOpenCall evs.
Proof.
  intros evs stack. split; [reflexivity |].
  destruct (C9_closes_match_opens buffered evs stack eq_refl) as [H1 H2].
  exact (eq_trans H1 H2).
Defined.

(* ------------------------------------------------------------------ *)
(** ** Void tags *)

Lemma pushed_no_void_close evs :
  Forall (fun node => isVoidClose node = false) (flat_map pushed evs).
Proof.
  induction evs as [| ev rest IH]; [constructor |].
  cbn [flat_map]. apply Forall_app. split; [| exact IH].
  destruct ev as [name attributes | text | name]; cbn [pushed].
  - repeat constructor.
  - repeat constructor.
  - destruct (isSelfClosingTag name) eqn:Hvoid; repeat constructor. exact Hvoid.
Qed.

(** C5, as the spec states it, fails: the open-tag call for the void tag
    [br] moves the counter from 0 to 1. *)
Lemma C5_counterexample :
  isSelfClosingTag "br" = true
  /\ unclosed initial = 0%Z
  /\ unclosed (stateAfter (onopentag unbuffered "br" [] initial)) = 1%Z
  /\ unclosed (stateAfter (onopentag buffered "br" [] initial)) = 1%Z.
Proof. repeat split. Qed.

(** C5, amended.  Every open-tag call adds one to the counter and every
    close-tag call takes one off, for void and non-void names alike, and a
    text call leaves it alone; the open-tag call of a tag followed at once
    by its close-tag call, which is how the tokenizer reports a void tag,
    leaves the counter where it was. *)
Theorem C5_depth_moves_on_every_tag
        (options : HtmlBalancerStreamOptions) (e : Engine)
        (name : string) (attributes : Js.Object_) (text : string) :
  unclosed (stateAfter (onopentag options name attributes e)) = (unclosed e + 1)%Z
  /\ unclosed (stateAfter (onclosetag options name e)) = (unclosed e - 1)%Z
  /\ unclosed (stateAfter (ontext options text e)) = unclosed e
  /\ unclosed (stateAfter
       (deliver options [OnOpenTag name attributes; OnCloseTag name] e)) = unclosed e.
Proof.
  repeat split.
  - change (onopentag options name attributes) with (dispatch options (OnOpenTag name attributes)).
    rewrite dispatch_settle, stateAfter_settle. reflexivity.
  - change (onclosetag options name) with (dispatch options (OnCloseTag name)).
    rewrite dispatch_settle, stateAfter_settle. cbn [unclosed delta]. lia.
  - change (ontext options text) with (dispatch options (OnText text)).
    rewrite dispatch_settle, stateAfter_settle. cbn [unclosed delta]. lia.
  - rewrite deliver_unclosed. cbn [depthChange delta]. lia.
Qed.

(* ------------------------------------------------------------------ *)
(** ** Flush timing *)

Lemma htmlNodesToString_single node : htmlNodesToString [node] = nodeToString node.
Proof. reflexivity. Qed.

(** C3, as the spec states it, fails: the tokenizer reports [<br>] as an
    open-tag call and a close-tag call, and the two calls yield one chunk;
    the close-tag call yields none. *)
Lemma C3_counterexample :
  chunks (deliver unbuffered [OnOpenTag "br" []; OnCloseTag "br"] initial) = ["<br/>"]
  /\ chunks (dispatch unbuffered (OnCloseTag "br")
               (stateAfter (dispatch unbuffered (OnOpenTag "br" []) initial))) = [].
Proof. split; reflexivity. Qed.

(** C3, amended.  Without buffering, after any calls whatever, an open-tag
    call yields exactly one chunk, the opening tag; a text call yields
    exactly one chunk, the sanitized text; a close-tag call yields exactly
    one chunk, the closing tag, unless the name is void, in which case it
    yields none. *)
Theorem C3_unbuffered_chunk_per_call (evs : list Event) (ev : Event) :
  chunks (dispatch unbuffered ev (stateAfter (deliver unbuffered evs initial)))
  = match ev with
    | OnOpenTag name attributes => [nodeToString (Open name attributes)]
    | OnText text => [sanitize text]
    | OnCloseTag name =>
        if isSelfClosingTag name then [] else ["</" ++ name ++ ">"]%string
    end.
Proof.
  destruct (deliver_unbuffered unbuffered evs initial eq_refl eq_refl) as [Hb _].
  unfold chunks. rewrite dispatch_settle, enqueued_settle, Hb.
  destruct ev as [name attributes | text | name]; cbn [wantsFlush unbuffered shouldBuffer negb orb].
  - reflexivity.
  - reflexivity.
  - cbn [app pushed]. destruct (isSelfClosingTag name); reflexivity.
Qed.

(** While buffering, calls that never leave the counter at 0 enqueue
    nothing and accumulate in the buffer. *)
Lemma deliver_quiet evs e :
  (forall k, (0 < k <= length evs)%nat ->
             (unclosed e + depthChange (firstn k evs))%Z <> 0%Z) ->
  enqueued (deliver buffered evs e) = []
  /\ buffer (stateAfter (deliver buffered evs e)) = buffer e ++ flat_map pushed evs.
Proof.
  revert e. induction evs as [| ev rest IH]; intros e Hpos.
  - simpl. unfold ret, enqueued, stateAfter; simpl. rewrite app_nil_r. auto.
  - rewrite deliver_cons. cbv zeta.
    change (stateAfter (tt, ?s, ?o)) with s. change (enqueued (tt, ?s, ?o)) with o.
    rewrite dispatch_settle, stateAfter_settle, enqueued_settle.
    assert (H1 : (unclosed e + delta ev)%Z <> 0%Z).
    { specialize (Hpos 1%nat). cbn [firstn depthChange length] in Hpos.
      rewrite Z.add_0_r in Hpos. apply Hpos. lia. }
    assert (Hf : wantsFlush buffered ev (unclosed e + delta ev) = false).
    { destruct ev; cbn [wantsFlush buffered shouldBuffer negb orb]; try reflexivity;
        apply Z.eqb_neq; exact H1. }
    rewrite Hf.
    destruct (IH {| unclosed := unclosed e + delta ev; buffer := buffer e ++ pushed ev |})
      as [Hq Hb].
    { intros k Hk. specialize (Hpos (S k)).
      cbn [firstn depthChange length unclosed] in *.
      rewrite Z.add_assoc in Hpos. apply Hpos. lia. }
    rewrite Hq, Hb. cbn [buffer flat_map]. rewrite app_assoc. auto.
Qed.

(** C2.  While buffering: a call that leaves the counter above 0 yields
    no chunk; a text call that finds the counter at 0 yields exactly one
    chunk; and a run of calls that starts with the counter at 0, keeps it
    above 0 in between and brings it back to 0 yields nothing before its
    last call and then exactly one chunk, holding all its nodes. *)
Theorem C2_buffered_flush_timing :
  (forall (ev : Event) (e : Engine),
      (0 < unclosed (stateAfter (dispatch buffered ev e)))%Z ->
      chunks (dispatch buffered ev e) = [])
  /\ (forall (text : string) (e : Engine),
      unclosed e = 0%Z ->
      chunks (dispatch buffered (OnText text) e)
      = [htmlNodesToString (buffer e ++ [Text (sanitize text)])])
  /\ (forall (evs : list Event) (e : Engine),
      unclosed e = 0%Z ->
      evs <> [] ->
      (forall k, (0 < k < length evs)%nat ->
                 (0 < unclosed (stateAfter (deliver buffered (firstn k evs) e)))%Z) ->
      unclosed (stateAfter (deliver buffered evs e)) = 0%Z ->
      (forall k, (k < length evs)%nat ->
                 chunks (deliver buffered (firstn k evs) e) = [])
      /\ chunks (deliver buffered evs e)
         = [htmlNodesToString (buffer e ++ flat_map pushed evs)]).
Proof.
  split; [| split].
  - intros ev e Hpos. unfold chunks.
    rewrite dispatch_settle, stateAfter_settle in Hpos. cbn [unclosed] in Hpos.
    rewrite dispatch_settle, enqueued_settle.
    replace (wantsFlush buffered ev (unclosed e + delta ev)) with false; [reflexivity |].
    symmetry. destruct ev; cbn [wantsFlush buffered shouldBuffer negb orb]; try reflexivity;
      apply Z.eqb_neq; lia.
  - intros text e Hzero. unfold chunks.
    rewrite dispatch_settle, enqueued_settle. cbn [wantsFlush buffered shouldBuffer negb orb delta pushed].
    rewrite Hzero. cbn [Z.add Z.eqb]. destruct (buffer e); reflexivity.
  - intros evs e Hzero Hne Hmid Hend.
    assert (Hmid' : forall k, (0 < k < length evs)%nat ->
                              (0 < unclosed e + depthChange (firstn k evs))%Z).
    { intros k Hk. rewrite <- deliver_unclosed with (options := buffered). exact (Hmid k Hk). }
    rewrite deliver_unclosed in Hend. clear Hmid.
    split.
    + intros k Hk. unfold chunks.
      destruct (deliver_quiet (firstn k evs) e) as [Hq _]; [| rewrite Hq; reflexivity].
      intros j Hj. rewrite length_firstn in Hj. rewrite firstn_firstn.
      replace (Nat.min j k) with j by lia.
      specialize (Hmid' j). lia.
    + destruct (exists_last Hne) as (front & final & ->).
      rewrite length_app in Hmid'. cbn [length] in Hmid'.
      assert (Hfront : forall k, (0 < k <= length front)%nat ->
                                 (0 < unclosed e + depthChange (firstn k front))%Z).
      { intros k Hk. specialize (Hmid' k).
        rewrite firstn_app in Hmid'. replace (k - length front)%nat with 0%nat in Hmid' by lia.
        cbn [firstn] in Hmid'. rewrite app_nil_r in Hmid'. apply Hmid'. lia. }
      destruct (deliver_quiet front e) as [Hq Hb].
      { intros k Hk. specialize (Hfront k Hk). lia. }
      unfold chunks. rewrite deliver_app. cbv zeta.
      change (enqueued (tt, ?s, ?o)) with o. rewrite Hq. cbn [app].
      rewrite deliver_cons. cbv zeta. change (enqueued (tt, ?s, ?o)) with o.
      change (enqueued (deliver buffered [] _)) with (@nil Batch). rewrite app_nil_r.
      rewrite dispatch_settle, enqueued_settle, Hb.
      rewrite deliver_unclosed. rewrite flat_map_app. cbn [flat_map]. rewrite app_nil_r.
      assert (Hsum : depthChange (front ++ [final]) = (depthChange front + delta final)%Z).
      { clear. induction front as [| ev rest IH]; cbn [app depthChange]; lia. }
      rewrite Hsum in Hend.
      assert (Hlast : (0 < length front)%nat -> (0 < unclosed e + depthChange front)%Z).
      { intros Hlen. specialize (Hfront (length front)). rewrite firstn_all in Hfront.
        apply Hfront. lia. }
      assert (Hflush : wantsFlush buffered final (unclosed e + depthChange front + delta final)
                       = true
                       /\ buffer e ++ flat_map pushed front ++ pushed final <> []).
      { destruct final as [name attributes | text | name]; cbn [delta] in *.
        - exfalso. destruct front as [| ev rest]; [cbn [depthChange] in Hend; lia |].
          specialize (Hlast ltac:(cbn [length]; lia)). lia.
        - split.
          + cbn [wantsFlush buffered shouldBuffer negb orb]. apply Z.eqb_eq. lia.
          + cbn [pushed]. intros Habs. apply app_eq_nil in Habs. destruct Habs as [_ Habs].
            apply app_eq_nil in Habs. destruct Habs as [_ Habs]. discriminate.
        - split.
          + cbn [wantsFlush buffered shouldBuffer negb orb]. apply Z.eqb_eq. lia.
          + destruct front as [| ev rest]; [cbn [depthChange] in Hend; lia |].
            specialize (Hfront 1%nat ltac:(cbn [length]; lia)).
            cbn [firstn depthChange] in Hfront.
            destruct ev as [name' attributes' | text' | name']; cbn [delta] in Hfront; try lia.
            cbn [flat_map pushed]. intros Habs.
            apply app_eq_nil in Habs. destruct Habs as [_ Habs]. discriminate. }
      destruct Hflush as [Hf Hnonempty]. rewrite Hf. rewrite <- !app_assoc.
      destruct (buffer e ++ flat_map pushed front ++ pushed final); [contradiction | reflexivity].
Qed.

Lemma C2_witness :
  let evs := [OnOpenTag "div" []; OnOpenTag "p" []; OnText "content";
              OnCloseTag "p"; OnCloseTag "div"] in
  chunks (deliver buffered (firstn 4 evs) initial) = []
  /\ chunks (deliver buffered evs initial) = ["<div><p>content</p></div>"].
Proof.
  intros evs.
  assert (Hne : evs <> []) by discriminate.
  assert (Hmid : forall k, (0 < k < length evs)%nat ->
                 (0 < unclosed (stateAfter (deliver buffered (firstn k evs) initial)))%Z).
  { intros k Hk. cbn [length evs] in Hk.
    destruct k as [| [| [| [| [| k]]]]]; try lia; reflexivity. }
  destruct (proj2 (proj2 C2_buffered_flush_timing) evs initial eq_refl Hne Hmid eq_refl)
    as [Hquiet Hone].
  split; [apply Hquiet; cbn [length evs]; lia | exact Hone].
Defined.

(* ------------------------------------------------------------------ *)
(** ** Strings *)

Lemma append_assoc (a b c : string) : ((a ++ b) ++ c = a ++ (b ++ c))%string.
Proof. induction a as [| x a IH]; simpl; [reflexivity | rewrite IH; reflexivity]. Qed.

Lemma append_nil_r (a : string) : (a ++ "")%string = a.
Proof. induction a as [| x a IH]; simpl; [reflexivity | rewrite IH; reflexivity]. Qed.

Lemma mapChars_app f (a b : string) :
  mapChars f (a ++ b) = (mapChars f a ++ mapChars f b)%string.
Proof.
  induction a as [| x a IH]; simpl; [reflexivity |].
  rewrite IH, append_assoc. reflexivity.
Qed.

Lemma join_empty_cons (x : string) (xs : list string) :
  Js.join "" (x :: xs) = (x ++ Js.join "" xs)%string.
Proof.
  unfold Js.join. destruct xs as [| y ys]; cbn [String.concat].
  - rewrite append_nil_r. reflexivity.
  - reflexivity.
Qed.

Lemma join_empty_app (xs ys : list string) :
  Js.join "" (xs ++ ys) = (Js.join "" xs ++ Js.join "" ys)%string.
Proof.
  induction xs as [| x xs IH]; [reflexivity |].
  rewrite <- app_comm_cons, !join_empty_cons, IH, append_assoc. reflexivity.
Qed.

(** The rendering of a sequence of nodes is the renderings of the nodes,
    one after the other. *)
Lemma htmlNodesToString_app (xs ys : list HtmlNode) :
  htmlNodesToString (xs ++ ys) = (htmlNodesToString xs ++ htmlNodesToString ys)%string.
Proof. unfold htmlNodesToString. rewrite map_app. apply join_empty_app. Qed.

(** [replaceAll] with a pattern of one character acts on each character
    by itself. *)
Lemma replaceAll_single (p : ascii) (replacement s : string) :
  Js.replaceAll (String p "") replacement s
  = mapChars (fun c => if Ascii.eqb c p then replacement else String c "") s.
Proof.
  unfold Js.replaceAll. induction s as [| c rest IH]; [reflexivity |].
  cbn [Js.replaceFrom mapChars String.prefix String.length Nat.sub].
  destruct (ascii_dec p c) as [-> | Hne].
  - rewrite Ascii.eqb_refl.
    destruct rest; cbn [String.prefix]; rewrite IH; reflexivity.
  - assert (Hcp : Ascii.eqb c p = false).
    { apply Ascii.eqb_neq. intros ->. apply Hne. reflexivity. }
    rewrite Hcp, IH. reflexivity.
Qed.

(** The two replacements of the source, one after the other, amount to
    the escaping the spec describes. *)
Lemma sanitize_escapes (text : string) : sanitize text = escapeAngleBrackets text.
Proof.
  unfold sanitize, escapeAngleBrackets. rewrite !replaceAll_single.
  induction text as [| c rest IH]; [reflexivity |].
  cbn [mapChars]. rewrite mapChars_app, IH. f_equal.
  unfold escapeAngle.
  destruct (Ascii.eqb c "<") eqn:Hlt; [reflexivity |].
  cbn [mapChars]. destruct (Ascii.eqb c ">"); reflexivity.
Qed.

Lemma escapeAngleBrackets_clean (raw : string) :
  Forall (fun c => c <> "<"%char /\ c <> ">"%char)
         (list_ascii_of_string (escapeAngleBrackets raw)).
Proof.
  unfold escapeAngleBrackets. induction raw as [| c rest IH]; [constructor |].
  cbn [mapChars]. unfold escapeAngle at 1.
  destruct (Ascii.eqb c "<") eqn:Hlt; [| destruct (Ascii.eqb c ">") eqn:Hgt].
  - cbn. repeat (constructor; [split; discriminate |]). exact IH.
  - cbn. repeat (constructor; [split; discriminate |]). exact IH.
  - cbn. constructor; [| exact IH].
    apply Ascii.eqb_neq in Hlt, Hgt. auto.
Qed.

(** C7.  A text call appends to the buffer one Text node whose content is
    the raw text with every [<] replaced by [&lt;] and every [>] by
    [&gt;], so that neither character is left in it; this holds whether
    the node stays in the buffer or leaves with a batch at once.  The
    serializer renders a Text node as its content, unchanged. *)
Theorem C7_text_is_escaped_then_verbatim
        (options : HtmlBalancerStreamOptions) (text : string) (e : Engine) :
  let r := ontext options text e in
  concat (enqueued r) ++ buffer (stateAfter r)
    = buffer e ++ [Text (escapeAngleBrackets text)]
  /\ Forall (fun c => c <> "<"%char /\ c <> ">"%char)
            (list_ascii_of_string (escapeAngleBrackets text))
  /\ (forall content, htmlNodesToString [Text content] = content)
  /\ htmlNodesToString (buffer e ++ [Text (escapeAngleBrackets text)])
     = (htmlNodesToString (buffer e) ++ escapeAngleBrackets text)%string.
Proof.
  intros r. split; [| split; [| split]].
  - pose proof (dispatch_conserves options (OnText text) e) as H.
    cbv zeta in H. cbn [dispatch pushed] in H. rewrite sanitize_escapes in H. exact H.
  - apply escapeAngleBrackets_clean.
  - intros content. reflexivity.
  - rewrite htmlNodesToString_app. reflexivity.
Qed.

(* ------------------------------------------------------------------ *)
(** ** Attributes *)

Lemma fold_left_product f (cs : string) (product : string) :
  fold_left (fun p c => (p ++ f c)%string) (list_ascii_of_string cs) product
  = (product ++ mapChars f cs)%string.
Proof.
  revert product. induction cs as [| c rest IH]; intros product.
  - simpl. rewrite append_nil_r. reflexivity.
  - cbn [list_ascii_of_string fold_left mapChars].
    rewrite IH, append_assoc. reflexivity.
Qed.

(** [JSON.stringify] of a string: a double quote, the escaped characters,
    a double quote. *)
Lemma JSON_stringify_quoted (value : string) :
  Js.JSON_stringify value = (dq ++ escapeJSON value ++ dq)%string.
Proof.
  unfold Js.JSON_stringify, escapeJSON. rewrite fold_left_product, append_assoc.
  reflexivity.
Qed.

Lemma attributeString_quoted (kv : string * string) :
  attributeString kv = quotedAttribute kv.
Proof.
  unfold attributeString, quotedAttribute. rewrite JSON_stringify_quoted. reflexivity.
Qed.

Lemma insertByIndex_keeps (P : N * (string * string) -> Prop) i kv sorted :
  P (i, kv) -> Forall P sorted -> Forall P (Js.insertByIndex i kv sorted).
Proof.
  intros Hnew. induction sorted as [| [j kv'] rest IH]; intros Hall; cbn [Js.insertByIndex].
  - constructor; [exact Hnew | constructor].
  - destruct (i <? j)%N.
    + constructor; assumption.
    + inversion Hall; subst. constructor; [assumption | apply IH; assumption].
Qed.

Lemma insertByIndex_ascending i kv sorted :
  ascending (map fst sorted) = true ->
  ascending (map fst (Js.insertByIndex i kv sorted)) = true.
Proof.
  induction sorted as [| [j kv'] rest IH]; intros Hs; cbn [Js.insertByIndex].
  - reflexivity.
  - destruct (N.ltb_spec i j) as [Hlt | Hge].
    + cbn [map fst ascending] in *. rewrite Hs.
      replace (i <=? j)%N with true by (symmetry; apply N.leb_le; lia). reflexivity.
    + assert (Hrest : ascending (map fst rest) = true).
      { cbn [map fst ascending] in Hs. destruct rest as [| [j' kv''] rest']; [reflexivity |].
        cbn [map fst] in Hs. apply andb_true_iff in Hs. apply Hs. }
      specialize (IH Hrest).
      destruct rest as [| [j' kv''] rest'].
      * cbn. replace (j <=? i)%N with true by (symmetry; apply N.leb_le; lia). reflexivity.
      * cbn [map fst ascending] in Hs. apply andb_true_iff in Hs. destruct Hs as [Hjj' _].
        cbn [Js.insertByIndex] in *. destruct (N.ltb_spec i j') as [Hlt' | Hge'].
        -- cbn [map fst ascending] in *. rewrite IH.
           replace (j <=? i)%N with true by (symmetry; apply N.leb_le; lia). reflexivity.
        -- cbn [map fst ascending] in *. rewrite Hjj'. exact IH.
Qed.

Lemma indexEntries_indexed (o : Js.Object_) :
  Forall (fun entry => Js.arrayIndex (fst (snd entry)) = Some (fst entry))
         (Js.indexEntries o).
Proof.
  induction o as [| [k v] rest IH]; cbn [Js.indexEntries]; [constructor |].
  destruct (Js.arrayIndex k) eqn:Hk; [| exact IH].
  apply insertByIndex_keeps; [exact Hk | exact IH].
Qed.

Lemma indexEntries_ascending (o : Js.Object_) :
  ascending (map fst (Js.indexEntries o)) = true.
Proof.
  induction o as [| [k v] rest IH]; cbn [Js.indexEntries]; [reflexivity |].
  destruct (Js.arrayIndex k); [apply insertByIndex_ascending |]; exact IH.
Qed.

Lemma indexEntries_none (o : Js.Object_) :
  forallb notArrayIndex o = true -> Js.indexEntries o = [].
Proof.
  induction o as [| [k v] rest IH]; intros H; [reflexivity |].
  cbn [forallb] in H. apply andb_true_iff in H. destruct H as [Hk Hrest].
  cbn [Js.indexEntries]. unfold notArrayIndex, Js.isArrayIndex in Hk. cbn [fst] in Hk.
  destruct (Js.arrayIndex k); [discriminate | exact (IH Hrest)].
Qed.

Lemma filter_all {A : Type} (p : A -> bool) (xs : list A) :
  forallb p xs = true -> filter p xs = xs.
Proof.
  induction xs as [| x rest IH]; intros H; [reflexivity |].
  cbn [forallb] in H. apply andb_true_iff in H. destruct H as [Hx Hrest].
  cbn [filter]. rewrite Hx, (IH Hrest). reflexivity.
Qed.

Lemma filter_none {A : Type} (p : A -> bool) (xs : list A) :
  Forall (fun x => p x = false) xs -> filter p xs = [].
Proof.
  induction 1 as [| x rest Hx _ IH]; [reflexivity |].
  cbn [filter]. rewrite Hx. exact IH.
Qed.

Lemma filter_twice {A : Type} (p : A -> bool) (xs : list A) :
  filter p (filter p xs) = filter p xs.
Proof.
  induction xs as [| x rest IH]; [reflexivity |].
  cbn [filter]. destruct (p x) eqn:Hx; [cbn [filter]; rewrite Hx, IH |]; auto.
Qed.


(* ------------------------------------------------------------------ *)
(** ** The one-shot API *)

Example strip_trailing_fragment :
  stripIncompleteTag "<div>content<p cla" = "<div>content"
  /\ stripIncompleteTag "start < end" = "start "
  /\ stripIncompleteTag "<div>content</div>" = "<div>content</div>".
Proof. repeat split. Qed.

Lemma fold_left_result (pieces : list string) (result : string) :
  fold_left (fun result chunk => (result ++ chunk)%string) pieces result
  = (result ++ Js.join "" pieces)%string.
Proof.
  revert result. induction pieces as [| piece rest IH]; intros result.
  - simpl. rewrite append_nil_r. reflexivity.
  - cbn [fold_left]. rewrite IH, join_empty_cons, append_assoc. reflexivity.
Qed.

(** The result of the one-shot API is the rendering of the nodes pushed
    for the calls of the stripped text. *)
Lemma balanceHtmlString_renders tokenize (htmlString : string) :
  balanceHtmlString tokenize htmlString
  = htmlNodesToString
      (flat_map pushed (callsFor tokenize (stripIncompleteTag htmlString))).
Proof.
  unfold balanceHtmlString. rewrite fold_left_result. cbn [append].
  unfold chunks.
  destruct (deliver_unbuffered unbuffered
              (callsFor tokenize (stripIncompleteTag htmlString)) initial eq_refl eq_refl)
    as [_ Hq].
  rewrite Hq, map_map. reflexivity.
Qed.

Lemma hasGt_app (a b : string) : hasGt (a ++ b) = hasGt a || hasGt b.
Proof.
  induction a as [| c a IH]; [reflexivity |].
  cbn [append hasGt]. rewrite IH, orb_assoc. reflexivity.
Qed.

Lemma strip_app (a b : string) :
  stripIncompleteTag a = a -> stripIncompleteTag b = b ->
  stripIncompleteTag (a ++ b) = (a ++ b)%string.
Proof.
  intros Ha Hb. induction a as [| c a IH]; [exact Hb |].
  cbn [append stripIncompleteTag] in *.
  destruct (Ascii.eqb c "<" && negb (hasGt a)) eqn:Hcut; [discriminate |].
  injection Ha as Ha. rewrite hasGt_app.
  replace (Ascii.eqb c "<" && negb (hasGt a || hasGt b)) with false.
  - rewrite (IH Ha). reflexivity.
  - symmetry. destruct (Ascii.eqb c "<"); [| reflexivity].
    cbn [andb] in *. destruct (hasGt a); [reflexivity | discriminate].
Qed.

(** A text that ends with [>] has no incomplete tag at its end. *)
Lemma strip_closed (a : string) :
  stripIncompleteTag (a ++ ">") = (a ++ ">")%string.
Proof.
  induction a as [| c a IH]; [reflexivity |].
  cbn [append stripIncompleteTag]. rewrite hasGt_app.
  change (hasGt ">") with true. rewrite orb_true_r. cbn [negb].
  rewrite andb_false_r, IH. reflexivity.
Qed.

Lemma strip_escaped (raw : string) :
  stripIncompleteTag (escapeAngleBrackets raw) = escapeAngleBrackets raw.
Proof.
  pose proof (escapeAngleBrackets_clean raw) as H.
  induction (escapeAngleBrackets raw) as [| c rest IH]; [reflexivity |].
  cbn [list_ascii_of_string] in H. inversion H as [| ? ? [Hlt _] Hrest]; subst.
  cbn [stripIncompleteTag]. apply Ascii.eqb_neq in Hlt. rewrite Hlt. cbn [andb].
  rewrite (IH Hrest). reflexivity.
Qed.

Lemma strip_node ev node :
  In node (pushed ev) -> stripIncompleteTag (nodeToString node) = nodeToString node.
Proof.
  destruct ev as [name attributes | text | name]; cbn [pushed].
  - intros [<- | []]. cbn [nodeToString].
    rewrite <- !append_assoc. apply strip_closed.
  - intros [<- | []]. cbn [nodeToString]. rewrite sanitize_escapes. apply strip_escaped.
  - destruct (isSelfClosingTag name); [intros [] |].
    intros [<- | []]. cbn [nodeToString]. rewrite <- !append_assoc. apply strip_closed.
Qed.

Lemma strip_rendering evs :
  stripIncompleteTag (htmlNodesToString (flat_map pushed evs))
  = htmlNodesToString (flat_map pushed evs).
Proof.
  induction evs as [| ev rest IH]; [reflexivity |].
  cbn [flat_map]. rewrite htmlNodesToString_app. apply strip_app; [| exact IH].
  pose proof (strip_node ev) as Hnode.
  induction (pushed ev) as [| node nodes IHn]; [reflexivity |].
  change (node :: nodes) with ([node] ++ nodes). rewrite htmlNodesToString_app.
  apply strip_app.
  - rewrite htmlNodesToString_single. apply Hnode. left. reflexivity.
  - apply IHn. intros n Hn. apply Hnode. right. exact Hn.
Qed.

Lemma length_append (a b : string) :
  String.length (a ++ b) = (String.length a + String.length b)%nat.
Proof. induction a as [| c a IH]; cbn; [| rewrite IH]; reflexivity. Qed.

Lemma quoteJSONChar_length (c : ascii) :
  if jsonPlain c
  then Js.quoteJSONChar c = String c ""
  else (2 <= String.length (Js.quoteJSONChar c))%nat.
Proof.
  destruct c as [b0 b1 b2 b3 b4 b5 b6 b7].
  destruct b0, b1, b2, b3, b4, b5, b6, b7; vm_compute; first [reflexivity | lia].
Qed.

Lemma escapeJSON_plain (value : string) :
  allChars jsonPlain value = true -> escapeJSON value = value.
Proof.
  unfold escapeJSON. induction value as [| c rest IH]; intros H; [reflexivity |].
  cbn [allChars] in H. apply andb_true_iff in H. destruct H as [Hc Hrest].
  cbn [mapChars]. pose proof (quoteJSONChar_length c) as Hq. rewrite Hc in Hq.
  rewrite Hq, (IH Hrest). reflexivity.
Qed.

Lemma escapeJSON_grows (value : string) :
  (String.length value <= String.length (escapeJSON value))%nat
  /\ (allChars jsonPlain value = false ->
      (String.length value < String.length (escapeJSON value))%nat).
Proof.
  unfold escapeJSON. induction value as [| c rest [IHle IHlt]].
  - split; [reflexivity | discriminate].
  - cbn [mapChars allChars String.length]. rewrite length_append.
    pose proof (quoteJSONChar_length c) as Hq.
    destruct (jsonPlain c); cbn [andb].
    + rewrite Hq. cbn [String.length]. split; [lia |]. intros H. specialize (IHlt H). lia.
    + split; intros; lia.
Qed.

(** [JSON.stringify] writes a value as it is between the quotes exactly
    when the value has no double quote, no backslash and no control
    character. *)
Lemma JSON_stringify_fixed (value : string) :
  Js.JSON_stringify value = (dq ++ value ++ dq)%string
  <-> allChars jsonPlain value = true.
Proof.
  rewrite JSON_stringify_quoted. split.
  - intros H. apply (f_equal String.length) in H.
    rewrite !length_append in H.
    destruct (allChars jsonPlain value) eqn:Hall; [reflexivity |].
    pose proof (proj2 (escapeJSON_grows value) Hall). lia.
  - intros H. rewrite (escapeJSON_plain _ H). reflexivity.
Qed.

(** C4, as the spec states it, fails.  The text [<a b="\"></a>] is read
    as a tag [a] with the attribute value [\] and its closing tag, and
    needs no synthesized closing tag; the one-shot API turns it into
    [<a b="\\"></a>], the backslash doubled by the JSON escaping of the
    attribute value.  That text is read as the same tag with the value
    [\\], and the API, run on it, returns another text. *)
Lemma C4_counterexample :
  sampleTokenize sampleInput
    = ([OnOpenTag "a" [("b", backslash)]; OnCloseTag "a"], [])
  /\ sampleTokenize sampleOutput
    = ([OnOpenTag "a" [("b", (backslash ++ backslash)%string)]; OnCloseTag "a"], [])
  /\ balanceHtmlString sampleTokenize sampleInput = sampleOutput
  /\ String.eqb (balanceHtmlString sampleTokenize sampleOutput) sampleOutput = false.
Proof. repeat split. Qed.

(** C4, amended.  Whatever the tokenizer, the one-shot API strips nothing
    from its own output S, and run again on S it returns the rendering of
    the calls the tokenizer makes for S; so it returns S unchanged exactly
    when these calls render back to S.  The serializer writes an attribute
    value as it stands, between double quotes, exactly when the value has
    no double quote, no backslash and no control character. *)
Theorem C4_second_pass_renders_the_calls_for_S
        (tokenize : string -> list Event * list string) (htmlString : string) :
  let S := balanceHtmlString tokenize htmlString in
  stripIncompleteTag S = S
  /\ balanceHtmlString tokenize S
     = htmlNodesToString (flat_map pushed (callsFor tokenize S))
  /\ (balanceHtmlString tokenize S = S
      <-> htmlNodesToString (flat_map pushed (callsFor tokenize S)) = S)
  /\ (forall value,
        Js.JSON_stringify value = (dq ++ value ++ dq)%string
        <-> allChars jsonPlain value = true).
Proof.
  intros S.
  assert (Hstrip : stripIncompleteTag S = S).
  { unfold S. rewrite balanceHtmlString_renders. apply strip_rendering. }
  assert (Hagain : balanceHtmlString tokenize S
                   = htmlNodesToString (flat_map pushed (callsFor tokenize S))).
  { rewrite balanceHtmlString_renders, Hstrip. reflexivity. }
  split; [exact Hstrip |]. split; [exact Hagain |]. split.
  - rewrite Hagain. reflexivity.
  - apply JSON_stringify_fixed.
Qed.

(* ------------------------------------------------------------------ *)
(** ** Further properties of the engine *)

Lemma join_batches (batches : list Batch) :
  Js.join "" (map htmlNodesToString batches) = htmlNodesToString (concat batches).
Proof.
  induction batches as [| b rest IH]; [reflexivity |].
  cbn [map concat]. rewrite join_empty_cons, IH, htmlNodesToString_app. reflexivity.
Qed.

Lemma received_conserves options evs e :
  let r := deliver options evs e in
  (received r ++ htmlNodesToString (buffer (stateAfter r)))%string
  = htmlNodesToString (buffer e ++ flat_map pushed evs).
Proof.
  cbv zeta. unfold received, chunks. rewrite join_batches, <- htmlNodesToString_app.
  f_equal. apply deliver_conserves.
Qed.

(** X1.  In either mode, from any state of the engine and for any calls,
    the text received so far followed by the rendering of what is still
    buffered is the rendering of what was buffered before followed by the
    nodes of the calls, in the order of the calls: the engine loses,
    repeats and reorders nothing, whatever the cuts between chunks. *)
Theorem engine_output_is_the_rendering_in_order
        (options : HtmlBalancerStreamOptions) (evs : list Event) (e : Engine) :
  let r := deliver options evs e in
  (received r ++ htmlNodesToString (buffer (stateAfter r)))%string
  = (htmlNodesToString (buffer e)
       ++ Js.join "" (map htmlNodesToString (map pushed evs)))%string.
Proof.
  cbv zeta. rewrite received_conserves, htmlNodesToString_app, join_batches.
  rewrite flat_map_concat_map. reflexivity.
Qed.

(** X2.  For the same calls from a fresh engine, what the buffering engine
    has delivered followed by the rendering of what it withholds is what
    the engine without buffering has delivered: buffering moves the cuts
    between chunks and delays text, it never changes it. *)
Theorem buffering_only_delays (evs : list Event) :
  let withBuffer := deliver buffered evs initial in
  (received withBuffer ++ htmlNodesToString (buffer (stateAfter withBuffer)))%string
  = received (deliver unbuffered evs initial).
Proof.
  cbv zeta. rewrite received_conserves.
  pose proof (received_conserves unbuffered evs initial) as H. cbv zeta in H.
  destruct (deliver_unbuffered unbuffered evs initial eq_refl eq_refl) as [Hb _].
  rewrite Hb in H. change (htmlNodesToString []) with EmptyString in H.
  rewrite append_nil_r in H. symmetry. exact H.
Qed.

(** X3.  When the calls follow the tokenizer's discipline and the end of
    input has closed what was open, both modes deliver the same text, and
    neither withholds anything. *)
Theorem modes_agree_at_end_of_input (evs : list Event) (stack : list string) :
  openTags [] evs = Some stack ->
  let calls := evs ++ endOfInput stack in
  received (deliver buffered calls initial) = received (deliver unbuffered calls initial)
  /\ received (deliver buffered calls initial) = htmlNodesToString (flat_map pushed calls)
  /\ buffer (stateAfter (deliver buffered calls initial)) = []
  /\ buffer (stateAfter (deliver unbuffered calls initial)) = [].
Proof.
  intros Hopen calls.
  assert (Hall : openTags [] calls = Some []).
  { unfold calls. rewrite openTags_app, Hopen. apply openTags_endOfInput. }
  assert (Hinit : settled initial) by (intros _; reflexivity).
  destruct (deliver_wellNested buffered calls [] [] initial Hall eq_refl Hinit)
    as [Hzero Hdone].
  pose proof (Hdone Hzero) as Hb.
  destruct (deliver_unbuffered unbuffered calls initial eq_refl eq_refl) as [Hu _].
  pose proof (received_conserves buffered calls initial) as H1.
  pose proof (received_conserves unbuffered calls initial) as H2.
  cbv zeta in H1, H2. rewrite Hb in H1. rewrite Hu in H2.
  change (htmlNodesToString []) with EmptyString in H1, H2.
  rewrite append_nil_r in H1, H2. cbn [buffer initial app] in H1, H2.
  repeat split; try assumption. rewrite H1, H2. reflexivity.
Qed.

Lemma modes_agree_witness :
  let evs := [OnOpenTag "div" []; OnText "a < b"; OnOpenTag "br" []; OnCloseTag "br";
              OnOpenTag "p" [("class", "x")]; OnText "more"] in
  openTags [] evs = Some ["p"; "div"]
  /\ received (deliver buffered (evs ++ endOfInput ["p"; "div"]) initial)
     = received (deliver unbuffered (evs ++ endOfInput ["p"; "div"]) initial).
Proof.
  intros evs. split; [reflexivity |].
  exact (proj1 (modes_agree_at_end_of_input evs ["p"; "div"] eq_refl)).
Defined.

Lemma settle_batches f u b :
  (length (enqueued (settle f u b)) <= 1)%nat
  /\ Forall (fun batch => batch <> []) (enqueued (settle f u b)).
Proof.
  rewrite enqueued_settle. destruct f; [| split; [cbn; lia | constructor]].
  destruct b; split; cbn; try lia; repeat constructor. discriminate.
Qed.

(** X4.  In either mode and from any state, a call hands at most one
    batch to the consumer and never an empty one (the flush of an empty
    buffer enqueues nothing); so a run of calls yields at most as many
    chunks as there are calls, each the rendering of at least one node. *)
Theorem at_most_one_nonempty_batch_per_call
        (options : HtmlBalancerStreamOptions) (evs : list Event) (e : Engine) :
  (forall ev, (length (chunks (dispatch options ev e)) <= 1)%nat)
  /\ (length (chunks (deliver options evs e)) <= length evs)%nat
  /\ Forall (fun batch => batch <> []) (enqueued (deliver options evs e)).
Proof.
  split.
  - intros ev. unfold chunks. rewrite length_map, dispatch_settle. apply settle_batches.
  - unfold chunks. rewrite length_map. revert e.
    induction evs as [| ev rest IH]; intros e.
    + split; [cbn; lia | constructor].
    + rewrite deliver_cons. cbv zeta. change (enqueued (tt, ?s, ?o)) with o.
      rewrite length_app. destruct (IH (stateAfter (dispatch options ev e))) as [Hlen Hne].
      rewrite dispatch_settle in *.
      destruct (settle_batches (wantsFlush options ev (unclosed e + delta ev))
                  (unclosed e + delta ev) (buffer e ++ pushed ev)) as [H1 H2].
      split; [| apply Forall_app; split; assumption].
      change (length (ev :: rest)) with (S (length rest)). unfold Batch in *. lia.
Qed.

Lemma openTags_prefix stack front back final :
  openTags stack (front ++ back) = Some final ->
  exists mid, openTags stack front = Some mid.
Proof.
  rewrite openTags_app. destruct (openTags stack front) as [mid |]; [| discriminate].
  intros _. exists mid. reflexivity.
Qed.

(** X5.  Along calls that follow the tokenizer's discipline, after every
    prefix of the calls and in either mode, the counter is the number of
    tags then open, hence never negative, and whenever it is 0 the buffer
    is empty: nothing is withheld while no tag is open. *)
Theorem counter_is_number_of_open_tags
        (options : HtmlBalancerStreamOptions) (evs : list Event) (stack : list string) :
  openTags [] evs = Some stack ->
  forall k : nat,
    let e := stateAfter (deliver options (firstn k evs) initial) in
    exists open,
      openTags [] (firstn k evs) = Some open
      /\ unclosed e = Z.of_nat (length open)
      /\ (0 <= unclosed e)%Z
      /\ (unclosed e = 0%Z -> buffer e = []).
Proof.
  intros Hopen k e. rewrite <- (firstn_skipn k evs) in Hopen.
  destruct (openTags_prefix _ _ _ _ Hopen) as [open Hk].
  assert (Hinit : settled initial) by (intros _; reflexivity).
  destruct (deliver_wellNested options (firstn k evs) [] open initial Hk eq_refl Hinit)
    as [Hu Hs].
  fold e in Hu, Hs. exists open. repeat split; try assumption. lia.
Qed.

Lemma counter_witness :
  let evs := [OnOpenTag "div" []; OnOpenTag "br" []; OnCloseTag "br"; OnText "x";
              OnCloseTag "div"; OnText "tail"] in
  openTags [] evs = Some []
  /\ exists open,
       openTags [] (firstn 2 evs) = Some open
       /\ unclosed (stateAfter (deliver buffered (firstn 2 evs) initial))
          = Z.of_nat (length open).
Proof.
  intros evs. split; [reflexivity |].
  destruct (counter_is_number_of_open_tags buffered evs [] eq_refl 2) as (open & H1 & H2 & _).
  exists open. split; assumption.
Defined.

(** X6.  For any calls whatever, in either mode, the counter moves by the
    number of open-tag calls less the number of close-tag calls; text calls
    and the void-ness of the names play no part, and nothing keeps the
    counter from going below 0 when the closes outnumber the opens. *)
Theorem counter_is_opens_less_closes
        (options : HtmlBalancerStreamOptions) (evs : list Event) (e : Engine) :
  unclosed (stateAfter (deliver options evs e))
  = (unclosed e + Z.of_nat (count isOpenCall evs) - Z.of_nat (count isCloseCall evs))%Z.
Proof.
  rewrite deliver_unclosed. unfold count.
  induction evs as [| ev rest IH]; [cbn; lia |].
  destruct ev; cbn [depthChange delta filter isOpenCall isCloseCall length]; lia.
Qed.

(* ------------------------------------------------------------------ *)
(** ** Further properties of the sanitizer *)

Lemma escapeAngleBrackets_app (a b : string) :
  escapeAngleBrackets (a ++ b) = (escapeAngleBrackets a ++ escapeAngleBrackets b)%string.
Proof. apply mapChars_app. Qed.

Lemma escapeAngleBrackets_plain (s : string) :
  countChars isAngle s = 0%nat -> escapeAngleBrackets s = s.
Proof.
  unfold escapeAngleBrackets. induction s as [| c rest IH]; intros H; [reflexivity |].
  cbn [countChars] in H. unfold isAngle at 1 in H. cbn [mapChars].
  unfold escapeAngle at 1.
  destruct (Ascii.eqb c "<"); [cbn in H; discriminate |].
  destruct (Ascii.eqb c ">"); [cbn in H; discriminate |].
  cbn [orb Nat.add] in H. rewrite (IH H). reflexivity.
Qed.

Lemma escapeAngleBrackets_no_angle (s : string) :
  countChars isAngle (escapeAngleBrackets s) = 0%nat.
Proof.
  unfold escapeAngleBrackets. induction s as [| c rest IH]; [reflexivity |].
  cbn [mapChars]. unfold escapeAngle at 1.
  destruct (Ascii.eqb c "<") eqn:Hlt; [exact IH |].
  destruct (Ascii.eqb c ">") eqn:Hgt; [exact IH |].
  cbn [append countChars]. unfold isAngle at 1. rewrite Hlt, Hgt. exact IH.
Qed.

(** X7.  Sanitizing acts on each character by itself: the sanitized form
    of a text in two pieces is the two sanitized pieces, one after the
    other.  It is idempotent, because it leaves [&] alone: a text that is
    already escaped comes out as it went in, so a raw [<] and a written
    [&lt;] come out the same. *)
Theorem sanitize_composes_and_is_idempotent (a b : string) :
  sanitize (a ++ b) = (sanitize a ++ sanitize b)%string
  /\ sanitize (sanitize a) = sanitize a
  /\ sanitize (a ++ "&lt;" ++ b) = sanitize (a ++ "<" ++ b).
Proof.
  rewrite !sanitize_escapes. split; [apply escapeAngleBrackets_app |]. split.
  - apply escapeAngleBrackets_plain, escapeAngleBrackets_no_angle.
  - rewrite !escapeAngleBrackets_app. reflexivity.
Qed.

Lemma escapeAngleBrackets_length (s : string) :
  String.length (escapeAngleBrackets s)
  = (String.length s + 3 * countChars isAngle s)%nat.
Proof.
  unfold escapeAngleBrackets. induction s as [| c rest IH]; [reflexivity |].
  cbn [mapChars countChars String.length]. rewrite length_append, IH.
  unfold escapeAngle at 1.
  pose proof (eq_refl (isAngle c)) as Ha. unfold isAngle at 2 in Ha.
  destruct (Ascii.eqb c "<"), (Ascii.eqb c ">"); cbn [orb] in Ha; rewrite Ha;
    cbn [String.length]; lia.
Qed.

(** X8.  Sanitizing lengthens a text by three characters for each [<] or
    [>] in it, leaves no [<] and no [>] in the result, and returns the text
    unchanged exactly when it holds neither character. *)
Theorem sanitize_length_and_fixed_points (text : string) :
  String.length (sanitize text)
  = (String.length text + 3 * countChars isAngle text)%nat
  /\ countChars isAngle (sanitize text) = 0%nat
  /\ (sanitize text = text <-> countChars isAngle text = 0%nat).
Proof.
  rewrite sanitize_escapes. split; [apply escapeAngleBrackets_length |].
  split; [apply escapeAngleBrackets_no_angle |]. split.
  - intros H. apply (f_equal String.length) in H.
    rewrite escapeAngleBrackets_length in H. lia.
  - apply escapeAngleBrackets_plain.
Qed.

(** X9.  In either mode and from any state, a text delivered in two calls
    and the same text delivered in one call leave the same counter and the
    same text, received or still buffered: the pieces in which the
    tokenizer hands over a text only move the cuts between chunks. *)
Theorem text_in_pieces_renders_the_same
        (options : HtmlBalancerStreamOptions) (a b : string) (e : Engine) :
  let pieces := deliver options [OnText a; OnText b] e in
  let whole := deliver options [OnText (a ++ b)] e in
  (received pieces ++ htmlNodesToString (buffer (stateAfter pieces)))%string
  = (received whole ++ htmlNodesToString (buffer (stateAfter whole)))%string
  /\ unclosed (stateAfter pieces) = unclosed (stateAfter whole).
Proof.
  cbv zeta. rewrite !received_conserves, !deliver_unclosed. split.
  - cbn [flat_map pushed app]. rewrite !htmlNodesToString_app.
    f_equal. change (htmlNodesToString [Text (sanitize a); Text (sanitize b)])
      with (sanitize a ++ sanitize b)%string.
    change (htmlNodesToString [Text (sanitize (a ++ b))]) with (sanitize (a ++ b)).
    rewrite !sanitize_escapes, escapeAngleBrackets_app. reflexivity.
  - reflexivity.
Qed.

(* ------------------------------------------------------------------ *)
(** ** Further properties of the serializer *)

Lemma unquoteHead_quote (c : ascii) (rest : string) :
  unquoteHead (Js.quoteJSONChar c ++ rest) = Some (c, rest).
Proof.
  destruct c as [b0 b1 b2 b3 b4 b5 b6 b7].
  destruct b0, b1, b2, b3, b4, b5, b6, b7; reflexivity.
Qed.

Lemma escapeJSON_injective (a b : string) :
  escapeJSON a = escapeJSON b -> a = b.
Proof.
  unfold escapeJSON. revert b. induction a as [| c a IH]; intros [| d b] H.
  - reflexivity.
  - apply (f_equal unquoteHead) in H. cbn [mapChars] in H.
    rewrite unquoteHead_quote in H. discriminate.
  - apply (f_equal unquoteHead) in H. cbn [mapChars] in H.
    rewrite unquoteHead_quote in H. discriminate.
  - apply (f_equal unquoteHead) in H. cbn [mapChars] in H.
    rewrite !unquoteHead_quote in H. injection H as -> H. rewrite (IH _ H). reflexivity.
Qed.

Lemma append_cancel_r (x y z : string) :
  (x ++ z = y ++ z)%string -> x = y.
Proof.
  revert y. induction x as [| c x IH]; intros [| d y] H.
  - reflexivity.
  - apply (f_equal String.length) in H.
    cbn [append String.length] in H. rewrite ?length_append in H. lia.
  - apply (f_equal String.length) in H.
    cbn [append String.length] in H. rewrite ?length_append in H. lia.
  - cbn [append] in H. injection H as -> H. rewrite (IH _ H). reflexivity.
Qed.

(** X10.  The escaping of attribute values loses nothing: two values with
    the same [JSON.stringify] are the same value, so two attributes of one
    name are rendered alike only when their values are equal. *)
Theorem attribute_values_render_injectively (key a b : string) :
  (Js.JSON_stringify a = Js.JSON_stringify b -> a = b)
  /\ (attributeString (key, a) = attributeString (key, b) -> a = b).
Proof.
  assert (Hinj : Js.JSON_stringify a = Js.JSON_stringify b -> a = b).
  { rewrite !JSON_stringify_quoted. intros H. cbn [append dq Js.dquote] in H.
    injection H as H. apply append_cancel_r in H. apply escapeJSON_injective, H. }
  split; [exact Hinj |].
  unfold attributeString. cbn [fst snd]. intros H. apply Hinj.
  induction key as [| c key IH]; cbn [append] in H.
  - injection H as H. exact H.
  - injection H as H. exact (IH H).
Qed.

Lemma attribute_values_witness :
  let a := ("tab" ++ String (ascii_of_nat 9) "" ++ dq ++ backslash)%string in
  Js.JSON_stringify a = Js.JSON_stringify a /\ a = a.
Proof.
  intros a. split; [reflexivity |].
  exact (proj1 (attribute_values_render_injectively "title" a a) eq_refl).
Defined.

Lemma insertByIndex_perm i kv sorted :
  Permutation (Js.insertByIndex i kv sorted) ((i, kv) :: sorted).
Proof.
  induction sorted as [| [j kv'] rest IH]; cbn [Js.insertByIndex].
  - apply Permutation_refl.
  - destruct (i <? j)%N; [apply Permutation_refl |].
    eapply perm_trans; [apply perm_skip, IH | apply perm_swap].
Qed.

Lemma indexEntries_perm (o : Js.Object_) :
  Permutation (map snd (Js.indexEntries o)) (filter hasArrayIndexName o).
Proof.
  induction o as [| [k v] rest IH]; cbn [Js.indexEntries filter]; [constructor |].
  unfold hasArrayIndexName at 1, Js.isArrayIndex. cbn [fst].
  destruct (Js.arrayIndex k) as [i |]; [| exact IH].
  eapply perm_trans.
  - apply Permutation_map, insertByIndex_perm.
  - cbn [map snd]. apply perm_skip, IH.
Qed.

Lemma filter_partition_perm {A : Type} (p : A -> bool) (xs : list A) :
  Permutation (filter p xs ++ filter (fun x => negb (p x)) xs) xs.
Proof.
  induction xs as [| x rest IH]; [constructor |].
  cbn [filter]. destruct (p x); cbn [negb app].
  - apply perm_skip, IH.
  - eapply perm_trans; [apply Permutation_sym, Permutation_middle | apply perm_skip, IH].
Qed.

(** X11.  [Object.entries] rearranges the attributes of a tag and nothing
    else: the entries rendered are a permutation of the attributes of the
    node, so every attribute appears in the opening tag exactly once. *)
Theorem every_attribute_is_rendered_once (name : string) (attributes : Js.Object_) :
  Permutation (Js.Object_entries attributes) attributes
  /\ length (map attributeString (Js.Object_entries attributes)) = length attributes
  /\ forall kv, In kv attributes <-> In kv (Js.Object_entries attributes).
Proof.
  assert (Hperm : Permutation (Js.Object_entries attributes) attributes).
  { unfold Js.Object_entries. eapply perm_trans.
    - apply Permutation_app_tail, indexEntries_perm.
    - apply (filter_partition_perm hasArrayIndexName). }
  split; [exact Hperm |]. split.
  - rewrite length_map. apply Permutation_length, Hperm.
  - intros kv. split; intros H.
    + eapply Permutation_in; [apply Permutation_sym, Hperm | exact H].
    + eapply Permutation_in; [exact Hperm | exact H].
Qed.

(* ------------------------------------------------------------------ *)
(** ** Further properties of the classifier, the one-shot API and the stream *)

Lemma void_names_lower (name : string) :
  isSelfClosingTag name = true -> allChars isLowerLetter name = true.
Proof.
  unfold isSelfClosingTag, selfClosingTags. cbn [existsb].
  repeat match goal with
         | |- (String.eqb name ?s || _) = true -> _ =>
             destruct (String.eqb_spec name s) as [-> | _]; [intros _; reflexivity |];
             cbn [orb]
         end.
  discriminate.
Qed.

(** X12.  The classifier compares names exactly: a name with any character
    that is not a lower-case letter is not void, so its opening tag is
    rendered without a slash and its close-tag call is rendered. *)
Theorem names_outside_lower_case_are_not_void
        (name : string) (attributes : Js.Object_) :
  allChars isLowerLetter name = false ->
  isSelfClosingTag name = false
  /\ pushed (OnCloseTag name) = [Close name]
  /\ nodeToString (Open name attributes)
     = ("<" ++ Js.join " " (name :: map attributeString (Js.Object_entries attributes))
            ++ ">")%string.
Proof.
  intros Hcase.
  assert (Hvoid : isSelfClosingTag name = false).
  { destruct (isSelfClosingTag name) eqn:H; [| reflexivity].
    apply void_names_lower in H. congruence. }
  cbn [pushed nodeToString]. rewrite Hvoid. repeat split.
Qed.

Lemma names_case_witness :
  allChars isLowerLetter "BR" = false
  /\ isSelfClosingTag "BR" = false
  /\ pushed (OnCloseTag "BR") = [Close "BR"].
Proof.
  split; [reflexivity |].
  destruct (names_outside_lower_case_are_not_void "BR" [] eq_refl) as (H1 & H2 & _).
  split; assumption.
Defined.

Lemma strip_split (s : string) :
  exists dropped,
    s = (stripIncompleteTag s ++ dropped)%string
    /\ hasGt dropped = false
    /\ (dropped = EmptyString \/ exists frag, dropped = String "<" frag).
Proof.
  induction s as [| c rest (dropped & Heq & Hgt & Hshape)].
  - exists EmptyString. repeat split. left. reflexivity.
  - cbn [stripIncompleteTag].
    destruct (Ascii.eqb c "<") eqn:Hc; cbn [andb]; [destruct (hasGt rest) eqn:Hrest |];
      cbn [negb].
    + exists dropped. cbn [append]. rewrite <- Heq. auto.
    + apply Ascii.eqb_eq in Hc. subst c. exists (String "<" rest). cbn [append hasGt].
      rewrite Hrest. repeat split. right. exists rest. reflexivity.
    + exists dropped. cbn [append]. rewrite <- Heq. auto.
Qed.

Lemma strip_idempotent (s : string) :
  stripIncompleteTag (stripIncompleteTag s) = stripIncompleteTag s.
Proof.
  induction s as [| c rest IH]; [reflexivity |].
  cbn [stripIncompleteTag].
  destruct (Ascii.eqb c "<" && negb (hasGt rest)) eqn:Hcut; [reflexivity |].
  cbn [stripIncompleteTag]. rewrite IH.
  replace (Ascii.eqb c "<" && negb (hasGt (stripIncompleteTag rest))) with false;
    [reflexivity |].
  symmetry. destruct (Ascii.eqb c "<"); [| reflexivity]. cbn [andb] in *.
  destruct (strip_split rest) as (dropped & Heq & Hgt & _).
  rewrite Heq, hasGt_app, Hgt, orb_false_r in Hcut. exact Hcut.
Qed.

(** X13.  Stripping the trailing incomplete tag cuts the text at most once:
    the text is what is kept followed by what is dropped; what is dropped
    is empty or starts with [<], and holds no [>]; what is kept has no
    incomplete tag left, so stripping again changes nothing. *)
Theorem strip_drops_one_trailing_fragment (htmlString : string) :
  (exists dropped,
      htmlString = (stripIncompleteTag htmlString ++ dropped)%string
      /\ hasGt dropped = false
      /\ (dropped = EmptyString \/ exists frag, dropped = String "<" frag))
  /\ stripIncompleteTag (stripIncompleteTag htmlString) = stripIncompleteTag htmlString
  /\ (String.length (stripIncompleteTag htmlString) <= String.length htmlString)%nat.
Proof.
  split; [apply strip_split |]. split; [apply strip_idempotent |].
  destruct (strip_split htmlString) as (dropped & Heq & _).
  rewrite Heq at 2. rewrite length_append. lia.
Qed.

Lemma strip_fragment (s frag : string) :
  stripIncompleteTag s = s -> hasGt frag = false ->
  stripIncompleteTag (s ++ String "<" frag) = s.
Proof.
  intros Hs Hfrag. induction s as [| c rest IH].
  - cbn [append stripIncompleteTag]. rewrite Hfrag. reflexivity.
  - cbn [append stripIncompleteTag] in *.
    destruct (Ascii.eqb c "<" && negb (hasGt rest)) eqn:Hcut; [discriminate |].
    injection Hs as Hs. rewrite hasGt_app. cbn [hasGt]. rewrite Hfrag.
    change (Ascii.eqb "<" ">") with false. cbn [orb]. rewrite orb_false_r, Hcut.
    rewrite (IH Hs). reflexivity.
Qed.

(** X14.  The one-shot API reads only what the stripping keeps: a text and
    its stripped form give the same result, whatever the tokenizer; so a
    fragment that starts with [<] and holds no [>], added to a text with no
    incomplete tag at its end, does not change the result. *)
Theorem one_shot_ignores_trailing_fragment
        (tokenize : string -> list Event * list string) (htmlString frag : string) :
  balanceHtmlString tokenize htmlString
  = balanceHtmlString tokenize (stripIncompleteTag htmlString)
  /\ (stripIncompleteTag htmlString = htmlString ->
      hasGt frag = false ->
      balanceHtmlString tokenize (htmlString ++ String "<" frag)
      = balanceHtmlString tokenize htmlString).
Proof.
  split.
  - unfold balanceHtmlString. rewrite strip_idempotent. reflexivity.
  - intros Hs Hfrag. unfold balanceHtmlString.
    rewrite (strip_fragment _ _ Hs Hfrag), Hs. reflexivity.
Qed.

Lemma one_shot_fragment_witness :
  let tokenize := fun _ : string => ([OnOpenTag "div" []; OnText "content"], ["div"]) in
  stripIncompleteTag "<div>content" = "<div>content"
  /\ hasGt "p cla" = false
  /\ balanceHtmlString tokenize ("<div>content" ++ String "<" "p cla")
     = balanceHtmlString tokenize "<div>content".
Proof.
  intros tokenize. split; [reflexivity |]. split; [reflexivity |].
  exact (proj2 (one_shot_ignores_trailing_fragment tokenize "<div>content" "p cla")
           eq_refl eq_refl).
Defined.

Lemma chunks_app options evs1 evs2 e :
  chunks (deliver options (evs1 ++ evs2) e)
  = chunks (deliver options evs1 e)
      ++ chunks (deliver options evs2 (stateAfter (deliver options evs1 e))).
Proof.
  unfold chunks. rewrite deliver_app. cbv zeta.
  change (enqueued (tt, ?s, ?o)) with o. apply map_app.
Qed.

(** X15.  What the stream yields for the chunks written to it and the
    closing of its input is what the engine enqueues for all the calls the
    parser makes, taken as one run from a fresh engine: the cuts between
    the chunks written reach the output only through the calls the parser
    makes.  A stream built without the option does not buffer. *)
Theorem stream_is_one_run_of_the_engine
        (ParserState : Type) (parserStart : ParserState)
        (parserWrite : ParserState -> string -> list Event * ParserState)
        (parserEnd : ParserState -> list Event)
        (given : option bool) (input : list string) :
  pipeThrough ParserState parserWrite parserEnd (streamOptions given) input
              (newStream ParserState parserStart)
  = chunks (deliver (streamOptions given)
              (callsOfStream ParserState parserWrite parserEnd input parserStart) initial)
  /\ pipeThrough ParserState parserWrite parserEnd (streamOptions None) input
                 (newStream ParserState parserStart)
     = pipeThrough ParserState parserWrite parserEnd unbuffered input
                   (newStream ParserState parserStart).
Proof.
  split; [| reflexivity].
  unfold newStream. generalize initial. revert parserStart.
  induction input as [| chunk rest IH]; intros p e.
  - reflexivity.
  - cbn [pipeThrough callsOfStream]. unfold transform. cbn [parser closure].
    destruct (parserWrite p chunk) as [evs next].
    rewrite chunks_app, IH. reflexivity.
Qed.

(* ------------------------------------------------------------------ *)
(** ** Balanced output *)

Lemma openNodes_app stack front back :
  openNodes stack (front ++ back)
  = match openNodes stack front with
    | Some mid => openNodes mid back
    | None => None
    end.
Proof.
  revert stack. induction front as [| node rest IH]; intros stack; [reflexivity |].
  destruct node as [name attributes | name | text]; cbn [app openNodes]; auto.
  destruct stack as [| top below]; [reflexivity |].
  destruct (String.eqb name top); auto.
Qed.

(** The nodes a call pushes move the open elements as the call moves the
    tokenizer's stack, the void names left out. *)
Lemma openNodes_pushed stack ev stack' :
  openTags stack [ev] = Some stack' ->
  openNodes (filter nonVoid stack) (pushed ev) = Some (filter nonVoid stack').
Proof.
  destruct ev as [name attributes | text | name]; cbn [openTags pushed].
  - intros H. injection H as <-. cbn [openNodes filter].
    change (nonVoid name) with (negb (isSelfClosingTag name)).
    destruct (isSelfClosingTag name); reflexivity.
  - intros H. injection H as <-. reflexivity.
  - destruct stack as [| top below]; [discriminate |].
    destruct (String.eqb_spec name top) as [-> | _]; [| discriminate].
    intros H. injection H as <-. cbn [filter].
    change (nonVoid top) with (negb (isSelfClosingTag top)).
    destruct (isSelfClosingTag top); cbn [negb openNodes]; [reflexivity |].
    rewrite String.eqb_refl. reflexivity.
Qed.

Lemma openNodes_pushed_all stack evs stack' :
  openTags stack evs = Some stack' ->
  openNodes (filter nonVoid stack) (flat_map pushed evs) = Some (filter nonVoid stack').
Proof.
  revert stack. induction evs as [| ev rest IH]; intros stack H.
  - cbn in *. injection H as <-. reflexivity.
  - change (ev :: rest) with ([ev] ++ rest) in H. rewrite openTags_app in H.
    destruct (openTags stack [ev]) as [mid |] eqn:Hev; [| discriminate].
    cbn [flat_map]. rewrite openNodes_app, (openNodes_pushed _ _ _ Hev). exact (IH _ H).
Qed.

Lemma buffered_batches_balanced evs stack stack' e :
  openTags stack evs = Some stack' ->
  unclosed e = Z.of_nat (length stack) ->
  openNodes [] (buffer e) = Some (filter nonVoid stack) ->
  let r := deliver buffered evs e in
  Forall balanced (enqueued r)
  /\ openNodes [] (buffer (stateAfter r)) = Some (filter nonVoid stack').
Proof.
  cbv zeta. revert stack e. induction evs as [| ev rest IH]; intros stack e Hopen Hu Hb.
  - cbn in Hopen. injection Hopen as <-. cbn. split; [constructor | exact Hb].
  - change (ev :: rest) with ([ev] ++ rest) in Hopen. rewrite openTags_app in Hopen.
    destruct (openTags stack [ev]) as [mid |] eqn:Hev; [| discriminate].
    rewrite deliver_cons. cbv zeta.
    change (stateAfter (tt, ?s, ?o)) with s. change (enqueued (tt, ?s, ?o)) with o.
    rewrite dispatch_settle, stateAfter_settle, enqueued_settle.
    assert (Hnodes : openNodes [] (buffer e ++ pushed ev) = Some (filter nonVoid mid)).
    { rewrite openNodes_app, Hb. apply openNodes_pushed, Hev. }
    assert (Hdepth : (unclosed e + delta ev)%Z = Z.of_nat (length mid)).
    { pose proof (openTags_depth _ _ _ Hev) as Hd. cbn [depthChange] in Hd. lia. }
    destruct (wantsFlush buffered ev (unclosed e + delta ev)) eqn:Hflush.
    + assert (Hmid : mid = []).
      { destruct ev; cbn [wantsFlush buffered shouldBuffer negb orb] in Hflush;
          try discriminate; apply Z.eqb_eq in Hflush;
          destruct mid; [reflexivity | cbn [length] in Hdepth; lia
                        | reflexivity | cbn [length] in Hdepth; lia]. }
      subst mid.
      destruct (IH [] {| unclosed := unclosed e + delta ev; buffer := [] |} Hopen Hdepth
                  eq_refl) as [Hq Hrest].
      split; [| exact Hrest].
      apply Forall_app. split; [| exact Hq].
      destruct (buffer e ++ pushed ev) eqn:Hbatch; constructor; [exact Hnodes | constructor].
    + destruct (IH mid {| unclosed := unclosed e + delta ev; buffer := buffer e ++ pushed ev |}
                  Hopen Hdepth Hnodes) as [Hq Hrest].
      split; [exact Hq | exact Hrest].
Qed.

(** X16.  While buffering, along calls that follow the tokenizer's
    discipline, every chunk is a balanced fragment: it closes, in the
    right order, every non-void element it opens and holds no other
    closing tag.  What is still withheld opens exactly the non-void tags
    that are open. *)
Theorem buffered_chunks_are_balanced_fragments (evs : list Event) (stack : list string) :
  openTags [] evs = Some stack ->
  let r := deliver buffered evs initial in
  Forall balanced (enqueued r)
  /\ (forall chunk, In chunk (chunks r) ->
        exists batch, chunk = htmlNodesToString batch /\ balanced batch)
  /\ openNodes [] (buffer (stateAfter r)) = Some (filter nonVoid stack).
Proof.
  intros Hopen r.
  destruct (buffered_batches_balanced evs [] stack initial Hopen eq_refl eq_refl)
    as [Hq Hb]. fold r in Hq, Hb.
  split; [exact Hq |]. split.
  - intros chunk Hin. unfold chunks in Hin. apply in_map_iff in Hin.
    destruct Hin as (batch & <- & Hin). exists batch. split; [reflexivity |].
    rewrite Forall_forall in Hq. exact (Hq batch Hin).
  - exact Hb.
Qed.

Lemma buffered_chunks_witness :
  let evs := [OnText "x"; OnOpenTag "div" []; OnOpenTag "br" []; OnCloseTag "br";
              OnOpenTag "p" []; OnCloseTag "p"; OnCloseTag "div"; OnOpenTag "em" []] in
  openTags [] evs = Some ["em"]
  /\ Forall balanced (enqueued (deliver buffered evs initial))
  /\ chunks (deliver buffered evs initial) = ["x"; "<div><br/><p></p></div>"].
Proof.
  intros evs. split; [reflexivity |].
  split; [exact (proj1 (buffered_chunks_are_balanced_fragments evs ["em"] eq_refl)) |].
  reflexivity.
Defined.

(** X17.  When the calls follow the tokenizer's discipline and the end of
    input has closed what was open, everything delivered, in either mode,
    is one balanced sequence of nodes: every non-void element opened is
    closed, in the right order, and no closing tag is left over. *)
Theorem output_is_balanced_at_end_of_input
        (options : HtmlBalancerStreamOptions) (evs : list Event) (stack : list string) :
  openTags [] evs = Some stack ->
  let r := deliver options (evs ++ endOfInput stack) initial in
  balanced (concat (enqueued r)) /\ buffer (stateAfter r) = [].
Proof.
  intros Hopen r.
  assert (Hall : openTags [] (evs ++ endOfInput stack) = Some []).
  { rewrite openTags_app, Hopen. apply openTags_endOfInput. }
  pose proof (openNodes_pushed_all [] _ [] Hall) as Hbal. cbn [filter] in Hbal.
  assert (Hinit : settled initial) by (intros _; reflexivity).
  destruct (deliver_wellNested options _ [] [] initial Hall eq_refl Hinit)
    as [Hzero Hdone]. fold r in Hzero, Hdone.
  pose proof (deliver_conserves options (evs ++ endOfInput stack) initial) as Hcons.
  cbv zeta in Hcons. fold r in Hcons. rewrite (Hdone Hzero), app_nil_r in Hcons.
  cbn [buffer initial app] in Hcons. unfold balanced. rewrite Hcons.
  split; [exact Hbal | exact (Hdone Hzero)].
Qed.

Lemma output_balanced_witness :
  let evs := [OnOpenTag "div" []; OnOpenTag "p" []; OnText "content"] in
  openTags [] evs = Some ["p"; "div"]
  /\ balanced (concat (enqueued (deliver buffered (evs ++ endOfInput ["p"; "div"]) initial))).
Proof.
  intros evs. split; [reflexivity |].
  exact (proj1 (output_is_balanced_at_end_of_input buffered evs ["p"; "div"] eq_refl)).
Defined.

(** X18.  For a tokenizer that keeps to the discipline on the stripped
    text, the one-shot API returns the rendering of the nodes the engine
    pushes for the calls of the text and of its end, and these nodes are a
    balanced sequence. *)
Theorem one_shot_result_is_balanced
        (tokenize : string -> list Event * list string) (htmlString : string)
        (evs : list Event) (stack : list string) :
  tokenize (stripIncompleteTag htmlString) = (evs, stack) ->
  openTags [] evs = Some stack ->
  balanceHtmlString tokenize htmlString
  = htmlNodesToString (flat_map pushed evs ++ map Close (filter nonVoid stack))
  /\ balanced (flat_map pushed evs ++ map Close (filter nonVoid stack)).
Proof.
  intros Htok Hopen.
  assert (Hall : openTags [] (evs ++ endOfInput stack) = Some []).
  { rewrite openTags_app, Hopen. apply openTags_endOfInput. }
  rewrite <- pushed_endOfInput, <- flat_map_app. split.
  - rewrite balanceHtmlString_renders. unfold callsFor. rewrite Htok. reflexivity.
  - pose proof (openNodes_pushed_all [] _ [] Hall) as Hbal. exact Hbal.
Qed.

Lemma one_shot_balanced_witness :
  let evs := [OnOpenTag "div" []; OnOpenTag "p" []; OnText "content"] in
  let tokenize := fun _ : string => (evs, ["p"; "div"]) in
  tokenize (stripIncompleteTag "<div><p>content") = (evs, ["p"; "div"])
  /\ openTags [] evs = Some ["p"; "div"]
  /\ balanceHtmlString tokenize "<div><p>content" = "<div><p>content</p></div>"
  /\ balanced [Open "div" []; Open "p" []; Text "content"; Close "p"; Close "div"].
Proof.
  intros evs tokenize. split; [reflexivity |]. split; [reflexivity |].
  exact (one_shot_result_is_balanced tokenize "<div><p>content" evs ["p"; "div"]
           eq_refl eq_refl).
Defined.

Lemma nodeToString_empty (node : HtmlNode) :
  nodeToString node = EmptyString -> node = Text EmptyString.
Proof.
  destruct node as [name attributes | name | text]; cbn [nodeToString].
  - discriminate.
  - discriminate.
  - intros ->. reflexivity.
Qed.

(** X19.  A chunk is the empty string only when its batch holds nothing
    but empty Text nodes: every tag renders to at least two characters.
    The flush tests the number of nodes and not the text, so an empty
    text call that is flushed does yield an empty chunk. *)
Theorem empty_chunk_only_from_empty_text (nodes : list HtmlNode) (e : Engine) :
  (htmlNodesToString nodes = EmptyString <-> forallb isEmptyText nodes = true)
  /\ (buffer e = [] -> chunks (ontext unbuffered EmptyString e) = [EmptyString]).
Proof.
  split.
  - induction nodes as [| node rest IH]; [split; reflexivity |].
    change (node :: rest) with ([node] ++ rest).
    rewrite htmlNodesToString_app, htmlNodesToString_single. cbn [app forallb].
    split.
    + intros H. destruct (nodeToString node) eqn:Hnode; [| discriminate].
      apply nodeToString_empty in Hnode. subst node. cbn [isEmptyText andb append] in *.
      apply IH, H.
    + intros H. apply andb_true_iff in H. destruct H as [Hnode Hrest].
      destruct node as [| | [|]]; try discriminate. cbn [nodeToString append].
      apply IH, Hrest.
  - intros Hb. change (ontext unbuffered EmptyString) with (dispatch unbuffered (OnText EmptyString)).
    unfold chunks. rewrite dispatch_settle, enqueued_settle, Hb. reflexivity.
Qed.

Lemma empty_chunk_witness :
  buffer initial = [] /\ chunks (ontext unbuffered EmptyString initial) = [EmptyString].
Proof.
  split; [reflexivity |].
  exact (proj2 (empty_chunk_only_from_empty_text [] initial) eq_refl).
Defined.

(** X20.  From a fresh engine, in either mode and for any calls, no Text
    node that is buffered or has been delivered holds a [<] or a [>]: in
    what the consumer receives these two characters come from tags only. *)
Theorem text_never_carries_angle_brackets
        (options : HtmlBalancerStreamOptions) (evs : list Event) :
  let r := deliver options evs initial in
  forallb (fun node => negb (isRawText node)) (concat (enqueued r)) = true
  /\ forallb (fun node => negb (isRawText node)) (buffer (stateAfter r)) = true.
Proof.
  intros r.
  pose proof (deliver_conserves options evs initial) as Hcons.
  cbv zeta in Hcons. fold r in Hcons. cbn [buffer initial app] in Hcons.
  assert (Hall : forallb (fun node => negb (isRawText node)) (flat_map pushed evs) = true).
  { clear. induction evs as [| ev rest IH]; [reflexivity |].
    cbn [flat_map]. rewrite forallb_app, IH, andb_true_r.
    destruct ev as [name attributes | text | name]; cbn [pushed forallb isRawText].
    - reflexivity.
    - rewrite sanitize_escapes, escapeAngleBrackets_no_angle. reflexivity.
    - destruct (isSelfClosingTag name); reflexivity. }
  rewrite <- Hcons, forallb_app in Hall. apply andb_true_iff in Hall. exact Hall.
Qed.

(* ------------------------------------------------------------------ *)
(** ** End of input, on the chunks *)




(* ------------------------------------------------------------------ *)
(** ** Opening tags and their attributes *)

Lemma Object_entries_perm (attributes : Js.Object_) :
  Permutation (Js.Object_entries attributes) attributes.
Proof.
  unfold Js.Object_entries. eapply perm_trans.
  - apply Permutation_app_tail, indexEntries_perm.
  - apply (filter_partition_perm hasArrayIndexName).
Qed.

Lemma Object_entries_single (key value : string) :
  Js.Object_entries [(key, value)] = [(key, value)].
Proof.
  unfold Js.Object_entries, Js.isArrayIndex. cbn [Js.indexEntries filter fst].
  destruct (Js.arrayIndex key); reflexivity.
Qed.

Lemma Object_entries_plain (attributes : Js.Object_) :
  forallb notArrayIndex attributes = true -> Js.Object_entries attributes = attributes.
Proof.
  intros H. unfold Js.Object_entries.
  rewrite (indexEntries_none _ H). cbn [map app].
  apply (filter_all notArrayIndex), H.
Qed.

Lemma quoteJSONChar_control (c : ascii) :
  (nat_of_ascii c < 32)%nat ->
  Js.quoteJSONChar c = (backslash ++ controlEscape c)%string.
Proof.
  destruct c as [b0 b1 b2 b3 b4 b5 b6 b7].
  destruct b0, b1, b2, b3, b4, b5, b6, b7; cbn; intros H;
    first [reflexivity | exfalso; lia].
Qed.

(** C10.  Every attribute of an Open node is written into the opening tag,
    once, as [name="escaped value"], the value always between double
    quotes: the attributes written are a permutation of the attributes of
    the node, in their own order when no name is an array index, and a
    tag with one attribute reads [<tag name="escaped value">].  Inside the
    quotes every double quote of the value reads as a backslash and a
    double quote, every backslash as two backslashes, a control character
    as a backslash and its JSON escape, and any other character as itself:
    JSON escaping, no character entity. *)
Theorem C10_attribute_values_are_json_strings
        (name : string) (attributes : Js.Object_) :
  nodeToString (Open name attributes)
  = ("<" ++ Js.join " " (name :: map quotedAttribute (Js.Object_entries attributes))
         ++ (if isSelfClosingTag name then "/" else "") ++ ">")%string
  /\ Permutation (Js.Object_entries attributes) attributes
  /\ (forallb notArrayIndex attributes = true ->
      nodeToString (Open name attributes)
      = ("<" ++ Js.join " " (name :: map quotedAttribute attributes)
             ++ (if isSelfClosingTag name then "/" else "") ++ ">")%string)
  /\ (forall key value,
        nodeToString (Open name [(key, value)])
        = ("<" ++ name ++ " " ++ key ++ "=" ++ dq ++ escapeJSON value ++ dq
               ++ (if isSelfClosingTag name then "/" else "") ++ ">")%string)
  /\ (forall a b, escapeJSON (a ++ dq ++ b)
                  = (escapeJSON a ++ backslash ++ dq ++ escapeJSON b)%string)
  /\ (forall a b, escapeJSON (a ++ backslash ++ b)
                  = (escapeJSON a ++ backslash ++ backslash ++ escapeJSON b)%string)
  /\ (forall c a b, (nat_of_ascii c < 32)%nat ->
                    escapeJSON (a ++ String c b)
                    = (escapeJSON a ++ backslash ++ controlEscape c ++ escapeJSON b)%string)
  /\ (forall c a b, (32 <= nat_of_ascii c)%nat ->
                    String c "" <> dq -> String c "" <> backslash ->
                    escapeJSON (a ++ String c b)
                    = (escapeJSON a ++ String c (escapeJSON b))%string).
Proof.
  assert (Hrender : forall attrs,
             nodeToString (Open name attrs)
             = ("<" ++ Js.join " " (name :: map quotedAttribute (Js.Object_entries attrs))
                    ++ (if isSelfClosingTag name then "/" else "") ++ ">")%string).
  { intros attrs. cbn [nodeToString]. f_equal. f_equal. f_equal. f_equal.
    apply map_ext. intros kv. apply attributeString_quoted. }
  split; [apply Hrender |]. split; [apply Object_entries_perm |].
  split; [| split; [| split; [| split; [| split]]]].
  - intros H. rewrite Hrender, (Object_entries_plain _ H). reflexivity.
  - intros key value. rewrite Hrender, Object_entries_single.
    cbn [map Js.join String.concat]. unfold quotedAttribute. cbn [fst snd].
    rewrite !append_assoc. reflexivity.
  - intros a b. unfold escapeJSON. rewrite !mapChars_app. reflexivity.
  - intros a b. unfold escapeJSON. rewrite !mapChars_app. reflexivity.
  - intros c a b Hc. unfold escapeJSON. rewrite mapChars_app. cbn [mapChars].
    rewrite (quoteJSONChar_control c Hc), !append_assoc. reflexivity.
  - intros c a b Hc Hq Hb. unfold escapeJSON. rewrite mapChars_app. f_equal.
    cbn [mapChars]. unfold Js.quoteJSONChar.
    assert (H34 : nat_of_ascii c <> 34%nat).
    { intros H. apply Hq. rewrite <- (ascii_nat_embedding c), H. reflexivity. }
    assert (H92 : nat_of_ascii c <> 92%nat).
    { intros H. apply Hb. rewrite <- (ascii_nat_embedding c), H. reflexivity. }
    repeat match goal with
           | |- context [Nat.eqb ?x ?y] =>
               destruct (Nat.eqb_spec x y); [lia |]
           end.
    destruct (Nat.ltb_spec (nat_of_ascii c) 32); [lia |]. reflexivity.
Qed.

Lemma C10_witness :
  let attributes := [("title", ("say " ++ dq ++ "hi" ++ dq ++ backslash)%string);
                     ("data-x", String (ascii_of_nat 9) "<&>")] in
  forallb notArrayIndex attributes = true
  /\ nodeToString (Open "a" attributes)
     = ("<a title=" ++ dq ++ "say " ++ backslash ++ dq ++ "hi" ++ backslash ++ dq
            ++ backslash ++ backslash ++ dq
            ++ " data-x=" ++ dq ++ backslash ++ "t<&>" ++ dq ++ ">")%string.
Proof.
  intros attributes. split; [reflexivity |].
  exact (proj1 (proj2 (proj2 (C10_attribute_values_are_json_strings "a" attributes)))
           eq_refl).
Defined.

(** C8.  The code at the input that breaks the claim: an attribute named
    [1], met after an attribute named [b], is rendered before it, because
    [Object.entries] lists the property names that are array indices
    first.  The opening tag does not keep the order in which the
    attributes were met. *)
Theorem C8_array_index_name_is_rendered_first :
  chunks (deliver unbuffered [OnOpenTag "div" [("b", "x"); ("1", "y")]] initial)
  = [("<div 1=" ++ dq ++ "y" ++ dq ++ " b=" ++ dq ++ "x" ++ dq ++ ">")%string]
  /\ map fst (Js.Object_entries [("b", "x"); ("1", "y")]) = ["1"; "b"].
Proof. split; reflexivity. Qed.

Lemma indexEntries_names (o : Js.Object_) :
  map indexOfName (map snd (Js.indexEntries o)) = map fst (Js.indexEntries o).
Proof.
  pose proof (indexEntries_indexed o) as H.
  induction H as [| [i kv] rest Hi _ IH]; [reflexivity |].
  cbn [map fst snd] in *. unfold indexOfName at 1. rewrite Hi, IH. reflexivity.
Qed.

(** X21.  An Open node is rendered as its name followed by its attributes
    in the order of [Object.entries]: first the attributes whose name is
    an array index, by ascending index, then all the others in the order
    in which they were met; so in the order in which they were met when
    no name is an array index.  An attribute with an empty value is
    rendered with an empty double-quoted value, a slash precedes the
    closing bracket exactly for a void name, and the calls for
    [<input disabled checked type="checkbox">] yield, unbuffered, the
    single chunk [<input disabled="" checked="" type="checkbox"/>]. *)
Theorem open_tag_rendering_order (name : string) (attributes : Js.Object_) :
  nodeToString (Open name attributes)
  = ("<" ++ Js.join " " (name :: map attributeString (Js.Object_entries attributes))
         ++ (if isSelfClosingTag name then "/" else "") ++ ">")%string
  /\ (exists front,
        Js.Object_entries attributes = front ++ filter notArrayIndex attributes
        /\ Permutation front (filter hasArrayIndexName attributes)
        /\ ascending (map indexOfName front) = true)
  /\ (forallb notArrayIndex attributes = true -> Js.Object_entries attributes = attributes)
  /\ (forall key, attributeString (key, "") = (key ++ "=" ++ dq ++ dq)%string)
  /\ chunks (deliver unbuffered
               [OnOpenTag "input" [("disabled", ""); ("checked", ""); ("type", "checkbox")];
                OnCloseTag "input"] initial)
     = [("<input disabled=" ++ dq ++ dq ++ " checked=" ++ dq ++ dq
           ++ " type=" ++ dq ++ "checkbox" ++ dq ++ "/>")%string].
Proof.
  split; [reflexivity |]. split; [| split; [| split]].
  - exists (map snd (Js.indexEntries attributes)). split; [reflexivity |].
    split; [apply indexEntries_perm |].
    rewrite indexEntries_names. apply indexEntries_ascending.
  - apply Object_entries_plain.
  - intros key. reflexivity.
  - reflexivity.
Qed.

Lemma open_tag_rendering_witness :
  let attributes := [("class", "test"); ("id", "myid")] in
  forallb notArrayIndex attributes = true
  /\ Js.Object_entries attributes = attributes.
Proof.
  intros attributes. split; [reflexivity |].
  exact (proj1 (proj2 (proj2 (open_tag_rendering_order "div" attributes))) eq_refl).
Defined.

(* ------------------------------------------------------------------ *)
(** ** Calls that break the tokenizer's discipline *)

(** C9, as the spec states it, fails: the engine does not test a close-tag
    call against anything, so a close-tag call that no open-tag call
    precedes is rendered, and the stream brought to end of input holds one
    closing tag of a non-void name for no opening tag. *)
Lemma C9_counterexample :
  let calls := [OnCloseTag "div"] ++ endOfInput [] in
  chunks (deliver unbuffered calls initial) = ["</div>"]
  /\ count isNonVoidClose (concat (enqueued (deliver unbuffered calls initial))) = 1%nat
  /\ count isNonVoidOpen (concat (enqueued (deliver unbuffered calls initial))) = 0%nat
  /\ count isNonVoidOpenCall calls = 0%nat.
Proof. repeat split. Qed.

(* ------------------------------------------------------------------ *)
(** ** Closing tags of void names *)

Lemma hasLt_app (a b : string) : hasLt (a ++ b) = hasLt a || hasLt b.
Proof.
  induction a as [| c a IH]; [reflexivity |].
  cbn [append hasLt]. rewrite IH, orb_assoc. reflexivity.
Qed.

Lemma startsVoidClose_lt (c : ascii) (rest : string) :
  Ascii.eqb c "<" = false -> startsVoidClose (String c rest) = false.
Proof.
  intros Hc. unfold startsVoidClose, selfClosingTags, closingTag.
  cbn [existsb append String.prefix].
  destruct (ascii_dec "<" c) as [<- | _]; [discriminate | reflexivity].
Qed.

(** A text without [<] adds no closing tag in front of what follows. *)
Lemma hasVoidClose_plain (text rest : string) :
  hasLt text = false -> hasVoidClose (text ++ rest) = hasVoidClose rest.
Proof.
  induction text as [| c text IH]; intros H; [reflexivity |].
  cbn [hasLt] in H. apply orb_false_iff in H. destruct H as [Hc Htext].
  cbn [append hasVoidClose]. rewrite (startsVoidClose_lt _ _ Hc), (IH Htext). reflexivity.
Qed.

Lemma hasVoidClose_tag (body rest : string) :
  hasLt body = false ->
  startsVoidClose (String "<" (body ++ rest)) = false ->
  hasVoidClose (String "<" body ++ rest) = hasVoidClose rest.
Proof.
  intros Hbody Hstart. cbn [append hasVoidClose].
  rewrite Hstart, (hasVoidClose_plain _ _ Hbody). reflexivity.
Qed.

Lemma startsVoidClose_no_slash (d : ascii) (s : string) :
  Ascii.eqb d "/" = false -> startsVoidClose (String "<" (String d s)) = false.
Proof.
  intros Hd. unfold startsVoidClose, selfClosingTags, closingTag.
  cbn [existsb append String.prefix].
  destruct (ascii_dec "<" "<") as [_ | Hne]; [| exfalso; apply Hne; reflexivity].
  destruct (ascii_dec "/" d) as [<- | _]; [discriminate | reflexivity].
Qed.

Lemma prefix_close (void name rest : string) :
  hasGt void = false -> hasGt name = false ->
  String.prefix (void ++ ">") (name ++ ">" ++ rest) = true -> void = name.
Proof.
  revert name. induction void as [| c void IH]; intros [| d name] Hv Hn H.
  - reflexivity.
  - cbn [append String.prefix] in H. cbn [hasGt] in Hn.
    destruct (ascii_dec ">" d) as [<- | _]; [discriminate | discriminate].
  - cbn [append String.prefix] in H. cbn [hasGt] in Hv.
    destruct (ascii_dec c ">") as [-> | _]; [discriminate | discriminate].
  - cbn [append String.prefix] in H. cbn [hasGt] in Hv, Hn.
    apply orb_false_iff in Hv, Hn.
    destruct (ascii_dec c d) as [-> | _]; [| discriminate].
    f_equal. apply IH; [apply Hv | apply Hn | exact H].
Qed.

Lemma startsVoidClose_close (name rest : string) :
  isSelfClosingTag name = false -> hasGt name = false ->
  startsVoidClose (String "<" (String "/" (name ++ ">" ++ rest))) = false.
Proof.
  intros Hvoid Hgt. destruct (startsVoidClose _) eqn:H; [| reflexivity].
  unfold startsVoidClose in H. apply existsb_exists in H.
  destruct H as (void & Hin & Hprefix).
  assert (Hv : hasGt void = false).
  { clear - Hin. unfold selfClosingTags in Hin. cbn [In] in Hin.
    repeat (destruct Hin as [<- | Hin]; [reflexivity |]). contradiction. }
  unfold closingTag in Hprefix. cbn [append String.prefix] in Hprefix.
  destruct (ascii_dec "<" "<") as [_ | Hne]; [| exfalso; apply Hne; reflexivity].
  destruct (ascii_dec "/" "/") as [_ | Hne]; [| exfalso; apply Hne; reflexivity].
  apply (prefix_close _ _ _ Hv Hgt) in Hprefix. subst void.
  unfold isSelfClosingTag in Hvoid.
  assert (Hfound : existsb (String.eqb name) selfClosingTags = true).
  { apply existsb_exists. exists name. split; [exact Hin | apply String.eqb_refl]. }
  congruence.
Qed.

Lemma hasLt_quote (c : ascii) : hasLt (Js.quoteJSONChar c) = Ascii.eqb c "<".
Proof.
  destruct c as [b0 b1 b2 b3 b4 b5 b6 b7].
  destruct b0, b1, b2, b3, b4, b5, b6, b7; reflexivity.
Qed.

Lemma hasLt_escapeJSON (value : string) : hasLt (escapeJSON value) = hasLt value.
Proof.
  unfold escapeJSON. induction value as [| c rest IH]; [reflexivity |].
  cbn [mapChars hasLt]. rewrite hasLt_app, hasLt_quote, IH. reflexivity.
Qed.

Lemma hasLt_sanitize (text : string) : hasLt (sanitize text) = false.
Proof.
  rewrite sanitize_escapes. unfold escapeAngleBrackets.
  induction text as [| c rest IH]; [reflexivity |].
  cbn [mapChars]. rewrite hasLt_app, IH, orb_false_r. unfold escapeAngle.
  destruct (Ascii.eqb c "<") eqn:Hlt; [reflexivity |].
  destruct (Ascii.eqb c ">"); [reflexivity |]. cbn [hasLt]. rewrite Hlt. reflexivity.
Qed.

Lemma hasLt_join (sep : string) (xs : list string) :
  hasLt sep = false -> Forall (fun x => hasLt x = false) xs ->
  hasLt (Js.join sep xs) = false.
Proof.
  intros Hsep H. unfold Js.join. induction H as [| x rest Hx _ IH]; [reflexivity |].
  cbn [String.concat]. destruct rest as [| y rest']; [exact Hx |].
  rewrite !hasLt_app, Hx, Hsep, IH. reflexivity.
Qed.

Lemma hasLt_attributeString (kv : string * string) :
  hasLt (fst kv) = false -> hasLt (snd kv) = false -> hasLt (attributeString kv) = false.
Proof.
  intros Hk Hv. rewrite attributeString_quoted. unfold quotedAttribute.
  rewrite !hasLt_app, hasLt_escapeJSON, Hk, Hv. reflexivity.
Qed.

Lemma open_body_head (name : string) (parts : list string) (rest : string) :
  String.prefix "/" name = false ->
  exists d s,
    (Js.join " " (name :: parts) ++ (if isSelfClosingTag name then "/" else "") ++ ">"
       ++ rest)%string = String d s
    /\ Ascii.eqb d "/" = false.
Proof.
  intros Hslash. destruct name as [| d name].
  - change (isSelfClosingTag "") with false. unfold Js.join.
    destruct parts as [| part parts]; cbn [String.concat append].
    + exists ">"%char, rest. split; reflexivity.
    + eexists " "%char, _. split; reflexivity.
  - cbn [String.prefix] in Hslash.
    assert (Hd : Ascii.eqb d "/" = false).
    { destruct (ascii_dec "/" d) as [<- | Hne]; [destruct name; discriminate |].
      apply Ascii.eqb_neq. intros ->. apply Hne. reflexivity. }
    unfold Js.join. destruct parts as [| part parts]; cbn [String.concat append];
      eexists d, _; split; try reflexivity; exact Hd.
Qed.

Lemma pushed_clean (ev : Event) : plainCall ev = true -> Forall cleanNode (pushed ev).
Proof.
  destruct ev as [name attributes | text | name]; cbn [plainCall pushed]; intros H.
  - apply andb_true_iff in H. destruct H as [H Hattrs].
    apply andb_true_iff in H. destruct H as [Hname Hslash].
    apply negb_true_iff in Hname, Hslash.
    constructor; [| constructor]. intros rest. cbn [nodeToString].
    set (parts := map attributeString (Js.Object_entries attributes)).
    set (slash := if isSelfClosingTag name then "/" else "").
    change ("<" ++ Js.join " " (name :: parts) ++ slash ++ ">")%string
      with (String "<" (Js.join " " (name :: parts) ++ slash ++ ">")).
    apply hasVoidClose_tag.
    + rewrite !hasLt_app.
      assert (Hparts : Forall (fun x => hasLt x = false) (name :: parts)).
      { constructor; [exact Hname |]. unfold parts. apply Forall_map.
        rewrite Forall_forall. intros kv Hin.
        apply (Permutation_in _ (Object_entries_perm attributes)) in Hin.
        rewrite forallb_forall in Hattrs. specialize (Hattrs kv Hin).
        apply andb_true_iff in Hattrs. destruct Hattrs as [Hk Hv].
        apply negb_true_iff in Hk, Hv. apply hasLt_attributeString; assumption. }
      rewrite (hasLt_join " " _ eq_refl Hparts). unfold slash.
      destruct (isSelfClosingTag name); reflexivity.
    + rewrite !append_assoc.
      destruct (open_body_head name parts rest Hslash) as (d & s & Heq & Hd).
      fold slash in Heq. rewrite Heq. apply startsVoidClose_no_slash, Hd.
  - constructor; [| constructor]. intros rest. cbn [nodeToString].
    apply hasVoidClose_plain, hasLt_sanitize.
  - apply andb_true_iff in H. destruct H as [Hlt Hgt]. apply negb_true_iff in Hlt, Hgt.
    destruct (isSelfClosingTag name) eqn:Hvoid; constructor; [| constructor].
    intros rest. cbn [nodeToString].
    change ("</" ++ name ++ ">")%string with (String "<" (String "/" (name ++ ">"))).
    apply hasVoidClose_tag.
    + cbn [hasLt]. rewrite hasLt_app, Hlt. reflexivity.
    + cbn [append]. rewrite append_assoc. apply startsVoidClose_close; assumption.
Qed.

Lemma clean_render (nodes : list HtmlNode) (rest : string) :
  Forall cleanNode nodes ->
  hasVoidClose (htmlNodesToString nodes ++ rest) = hasVoidClose rest.
Proof.
  induction 1 as [| node nodes Hnode _ IH]; [reflexivity |].
  change (node :: nodes) with ([node] ++ nodes).
  rewrite htmlNodesToString_app, htmlNodesToString_single, append_assoc, Hnode.
  exact IH.
Qed.

Lemma pushed_all_clean (evs : list Event) :
  forallb plainCall evs = true -> Forall cleanNode (flat_map pushed evs).
Proof.
  induction evs as [| ev rest IH]; intros H; [constructor |].
  cbn [forallb] in H. apply andb_true_iff in H. destruct H as [Hev Hrest].
  cbn [flat_map]. apply Forall_app. split; [apply pushed_clean, Hev | exact (IH Hrest)].
Qed.

Lemma Forall_concat {A : Type} (P : A -> Prop) (xss : list (list A)) :
  Forall P (concat xss) -> Forall (Forall P) xss.
Proof.
  induction xss as [| xs rest IH]; intros H; [constructor |].
  cbn [concat] in H. apply Forall_app in H. destruct H as [H1 H2].
  constructor; [exact H1 | exact (IH H2)].
Qed.

(** C6, as the spec states it, fails in its second half: the serializer
    writes the [<], [/] and [>] of an attribute value as they are, so an
    output chunk can hold the text [</br>]. *)
Lemma C6_counterexample :
  chunks (deliver unbuffered [OnOpenTag "div" [("title", "</br>")]] initial)
  = [("<div title=" ++ dq ++ "</br>" ++ dq ++ ">")%string]
  /\ hasVoidClose ("<div title=" ++ dq ++ "</br>" ++ dq ++ ">") = true.
Proof. split; reflexivity. Qed.

(** C6, amended.  After any calls whatever, in either mode, no node in the
    buffer and no node of any batch enqueued is a closing tag of a void
    name.  When moreover the calls carry names such as a tokenizer reports
    (no [<] in a tag name, an attribute name or an attribute value, no
    slash at the start of a tag name, no [>] in the name of a closing
    tag), the text [</name>] of a void name occurs in no output chunk,
    nor across chunks in the text received. *)
Theorem C6_no_void_close_in_buffer_or_chunks
        (options : HtmlBalancerStreamOptions) (evs : list Event) :
  let r := deliver options evs initial in
  Forall (fun node => isVoidClose node = false) (buffer (stateAfter r))
  /\ Forall (Forall (fun node => isVoidClose node = false)) (enqueued r)
  /\ (forallb plainCall evs = true ->
      (forall chunk, In chunk (chunks r) -> hasVoidClose chunk = false)
      /\ hasVoidClose (received r) = false).
Proof.
  intros r.
  pose proof (deliver_conserves options evs initial) as Hcons.
  cbv zeta in Hcons. fold r in Hcons. cbn [buffer initial app] in Hcons.
  pose proof (pushed_no_void_close evs) as Hall. rewrite <- Hcons in Hall.
  apply Forall_app in Hall. destruct Hall as [Hq Hb].
  split; [exact Hb |]. split; [apply Forall_concat, Hq |].
  intros Hplain. pose proof (pushed_all_clean evs Hplain) as Hclean.
  rewrite <- Hcons in Hclean. apply Forall_app in Hclean. destruct Hclean as [Hclean _].
  split.
  - intros chunk Hin. unfold chunks in Hin. apply in_map_iff in Hin.
    destruct Hin as (batch & <- & Hin).
    pose proof (Forall_concat _ _ Hclean) as Hbatches.
    rewrite Forall_forall in Hbatches.
    pose proof (clean_render batch EmptyString (Hbatches batch Hin)) as H.
    rewrite append_nil_r in H. exact H.
  - unfold received, chunks. rewrite join_batches.
    pose proof (clean_render _ EmptyString Hclean) as H.
    rewrite append_nil_r in H. exact H.
Qed.

Lemma C6_witness :
  let evs := [OnOpenTag "div" [("class", "a/b>c")]; OnOpenTag "br" []; OnCloseTag "br";
              OnText "x </br> y"; OnCloseTag "div"] in
  forallb plainCall evs = true
  /\ hasVoidClose (received (deliver buffered evs initial)) = false
  /\ received (deliver buffered evs initial)
     = ("<div class=" ++ dq ++ "a/b>c" ++ dq ++ "><br/>x &lt;/br&gt; y</div>")%string.
Proof.
  intros evs. split; [reflexivity |].
  split; [| reflexivity].
  exact (proj2 (proj2 (proj2 (C6_no_void_close_in_buffer_or_chunks buffered evs))
                 eq_refl)).
Defined.
